(** * typed-worker: the correlation layer of [createTypedWorker]

    A shallow embedding of [createTypedWorker] as the repository has it in
    three revisions of [index.ts]:

    - the revision without worker events ([src/index.ts]), module [Index];
    - the revision with [onWSE] / [offWSE] / [clearWSE], whose [handleError]
      is an [async] function, module [SentEvent];
    - the revision with [onEvent] / [offEvent] / [clearEvents], module
      [SendEvent].

    The closure variables of [createTypedWorker] ([worker], [terminateResolve],
    [terminatePromise], [queue], [id] and the listener registry) are the
    fields of one record, threaded explicitly through every function.  What
    the closure reaches in its host (the promises it creates, the [Worker]
    objects [setupWorker] returns, the console) is part of the same record,
    so that "the promise was rejected", "a message was posted" and "an error
    was logged" are statements about the state. *)

From stdpp Require Import gmap strings list fin_maps.
From Stdlib Require Import ZArith.

Local Open Scope Z_scope.
Local Set Warnings "-register-all".

(** ** Host environment *)

(** The values that travel in messages and settle promises.  [VError m] is
    an [Error] object with message [m]; [VEvent k] is the [ErrorEvent] or
    [MessageEvent] of kind [k] that the worker's [error] and [messageerror]
    listeners receive. *)
Inductive value : Type :=
  | VUndefined
  | VNum (n : Z)
  | VStr (s : string)
  | VBool (b : bool)
  | VArr (vs : list value)
  | VError (message : string)
  | VEvent (kind : string).

(** A promise is pending or settled, and settles once. *)
Inductive promise : Type :=
  | Pending
  | Fulfilled (v : value)
  | Rejected (reason : value).

(** The two functions a [new Promise] executor receives, for the promise at
    address [p] of the store. *)
Inductive continuation : Type :=
  | ResolveOf (p : nat)
  | RejectOf (p : nat).

Definition target (k : continuation) : nat :=
  match k with ResolveOf p | RejectOf p => p end.

(** Settling an already settled promise does nothing. *)
Definition settle (p : nat) (o : promise) (ps : list promise) : list promise :=
  match ps !! p with
  | Some Pending => <[p := o]> ps
  | _ => ps
  end.

(** Calling a continuation with a value.  Payloads arrive by structured
    clone, so none is a thenable and [resolve v] fulfils with [v]. *)
Definition invoke (k : continuation) (v : value) (ps : list promise) : list promise :=
  match k with
  | ResolveOf p => settle p (Fulfilled v) ps
  | RejectOf p => settle p (Rejected v) ps
  end.

(** [new Promise(...)]: the next free address, pending. *)
Definition newPromise (ps : list promise) : nat * list promise :=
  (length ps, ps ++ [Pending]).

Module MainMessage.
Record t : Type := mk { id : Z; name : string; args : list value }.
End MainMessage.

Module WorkerMessage.
Record t : Type := mk { id : Z; name : string; payload : value; error : bool }.
End WorkerMessage.

(** The listeners [getWorker] attaches to a [Worker]. *)
Inductive handler : Type := HandleMessage | HandleError.

(** A [Worker] object as the closure sees it: the listeners attached to it,
    whether [terminate()] was called on it, and every [postMessage] call it
    received with its optional transfer list. *)
Record WorkerObj : Type := mkWorker {
  attached : list (string * handler);
  terminated : bool;
  posted : list (MainMessage.t * option (list value))
}.

Global Instance handler_eq_dec : EqDecision handler.
Proof. solve_decision. Defined.

Definition addEventListener (type : string) (h : handler) (w : WorkerObj) : WorkerObj :=
  mkWorker
    (if decide ((type, h) ∈ attached w) then attached w else attached w ++ [(type, h)])
    (terminated w) (posted w).

Definition removeEventListener (type : string) (h : handler) (w : WorkerObj) : WorkerObj :=
  mkWorker (filter (λ a, a ≠ (type, h)) (attached w)) (terminated w) (posted w).

Definition terminateObj (w : WorkerObj) : WorkerObj :=
  mkWorker (attached w) true (posted w).

(** A [postMessage] that returns: the message is recorded.  One that
    throws (an argument that cannot be cloned, a transfer list that is not
    valid) leaves the [Worker] as it is; what the closure does then is
    [applyThrown] below. *)
Definition postMessage (data : MainMessage.t) (transfer : option (list value))
    (w : WorkerObj) : WorkerObj :=
  mkWorker (attached w) (terminated w) (posted w ++ [(data, transfer)]).

(** What the console received. *)
Inductive log : Type :=
  | WorkerEncounteredError (e : value)
  | ErrorInEventHandler (name : string) (error : value).

(** ** The closure state *)

(** The entry of [queue]: the pair of continuations of one call. *)
Record entry : Type := mkEntry { resolve : continuation; reject : continuation }.

(** The promise an entry settles.  [apply] stores the two continuations of
    one promise: such an entry is [paired]. *)
Definition promiseOf (en : entry) : nat := target (resolve en).

Definition paired (en : entry) : Prop :=
  en = mkEntry (ResolveOf (promiseOf en)) (RejectOf (promiseOf en)).

(** An event listener is a function compared by reference: its address. *)
Definition listener : Type := nat.

(** [handles] is the listener registry of the two revisions with worker
    events ([handles] in one, [eventListeners] in the other): a [Map] from
    event name to a [Set] of listeners, the set in insertion order.  The
    revision without events never reads or writes it.  [delivered] records,
    in order, each invocation of a listener with its arguments.

    [promises] holds the promises the closure hands out or keeps: one per
    call and the completion signal of [terminate].  [workers] holds every
    [Worker] that [setupWorker] has returned, [console] what
    [console.error] has printed.

    [id] is a JavaScript number that only ever holds a natural number; it
    is an integer here. *)
Record state : Type := mkState {
  worker : option nat;
  terminateResolve : option continuation;
  terminatePromise : option nat;
  queue : gmap Z entry;
  id : Z;
  handles : gmap string (list listener);
  promises : list promise;
  workers : list WorkerObj;
  console : list log;
  delivered : list (listener * list value)
}.

Definition set_worker (x : option nat) (s : state) : state :=
  mkState x (terminateResolve s) (terminatePromise s) (queue s) (id s) (handles s)
    (promises s) (workers s) (console s) (delivered s).
Definition set_terminateResolve (x : option continuation) (s : state) : state :=
  mkState (worker s) x (terminatePromise s) (queue s) (id s) (handles s)
    (promises s) (workers s) (console s) (delivered s).
Definition set_terminatePromise (x : option nat) (s : state) : state :=
  mkState (worker s) (terminateResolve s) x (queue s) (id s) (handles s)
    (promises s) (workers s) (console s) (delivered s).
Definition set_queue (x : gmap Z entry) (s : state) : state :=
  mkState (worker s) (terminateResolve s) (terminatePromise s) x (id s) (handles s)
    (promises s) (workers s) (console s) (delivered s).
Definition set_id (x : Z) (s : state) : state :=
  mkState (worker s) (terminateResolve s) (terminatePromise s) (queue s) x (handles s)
    (promises s) (workers s) (console s) (delivered s).
Definition set_handles (x : gmap string (list listener)) (s : state) : state :=
  mkState (worker s) (terminateResolve s) (terminatePromise s) (queue s) (id s) x
    (promises s) (workers s) (console s) (delivered s).
Definition set_promises (x : list promise) (s : state) : state :=
  mkState (worker s) (terminateResolve s) (terminatePromise s) (queue s) (id s) (handles s)
    x (workers s) (console s) (delivered s).
Definition set_workers (x : list WorkerObj) (s : state) : state :=
  mkState (worker s) (terminateResolve s) (terminatePromise s) (queue s) (id s) (handles s)
    (promises s) x (console s) (delivered s).
Definition set_console (x : list log) (s : state) : state :=
  mkState (worker s) (terminateResolve s) (terminatePromise s) (queue s) (id s) (handles s)
    (promises s) (workers s) x (delivered s).
Definition set_delivered (x : list (listener * list value)) (s : state) : state :=
  mkState (worker s) (terminateResolve s) (terminatePromise s) (queue s) (id s) (handles s)
    (promises s) (workers s) (console s) x.

(** The state when [createTypedWorker] returns. *)
Definition initial : state :=
  mkState None None None ∅ 0 ∅ [] [] [] [].

(** ** The functions every revision has, with the same text *)

(** [setupWorker] is the caller's factory; by the channel provider's
    contract each call creates a new [Worker], here the next address of
    [workers]. *)
Definition setupWorker (s : state) : state * nat :=
  (set_workers (workers s ++ [mkWorker [] false []]) s, length (workers s)).

(** The listeners of a [Worker] that [getWorker] has set up. *)
Definition listening : list (string * handler) :=
  [("message", HandleMessage); ("error", HandleError); ("messageerror", HandleError)].

Definition getWorker (s : state) : state * nat :=
  match worker s with
  | Some w => (s, w)
  | None =>
      let '(s1, w) := setupWorker s in
      let s2 := set_worker (Some w) s1 in
      let s3 := set_workers (alter (addEventListener "message" HandleMessage) w (workers s2)) s2 in
      let s4 := set_workers (alter (addEventListener "error" HandleError) w (workers s3)) s3 in
      let s5 := set_workers (alter (addEventListener "messageerror" HandleError) w (workers s4)) s4 in
      (s5, w)
  end.

Definition terminateWorker (s : state) : state :=
  match worker s with
  | Some w =>
      let s1 := set_workers (alter (removeEventListener "message" HandleMessage) w (workers s)) s in
      let s2 := set_workers (alter (removeEventListener "error" HandleError) w (workers s1)) s1 in
      let s3 := set_workers (alter (removeEventListener "messageerror" HandleError) w (workers s2)) s2 in
      let s4 := set_workers (alter terminateObj w (workers s3)) s3 in
      set_worker None s4
  | None => s
  end.

(** The [Worker] that [terminateWorker] leaves behind: terminated, with
    none of the three listeners attached. *)
Definition tornDown (w : WorkerObj) : Prop :=
  terminated w = true ∧ ∀ a, a ∈ listening → a ∉ attached w.

Definition checkTerminateComplete (s : state) : state :=
  match terminatePromise s, terminateResolve s with
  | Some _, Some resolve =>
      if decide (size (queue s) = 0%nat) then
        let s1 := set_terminateResolve None s in
        let s2 := set_terminatePromise None s1 in
        let s3 := set_id 0 s2 in
        let s4 := terminateWorker s3 in
        set_promises (invoke resolve VUndefined (promises s4)) s4
      else s
  | _, _ => s
  end.

Definition onTaskComplete (s : state) : state := checkTerminateComplete s.

(** The state in which [checkTerminateComplete] calls [resolve()], when it
    does. *)
Definition restored (s : state) : state :=
  terminateWorker (set_id 0 (set_terminatePromise None (set_terminateResolve None s))).

(** The outcome of the [async] function [terminate]: its result promise is
    resolved with what the body returns, so it is fulfilled at once
    ([Completed]) or locked to the promise the body returned ([Follows]). *)
Inductive completion : Type :=
  | Completed
  | Follows (p : nat).

Definition terminate (s : state) : state * completion :=
  match worker s with
  | None => (s, Completed)
  | Some _ =>
      match terminatePromise s with
      | Some p => (s, Follows p)
      | None =>
          if decide (size (queue s) = 0%nat) then (terminateWorker s, Completed)
          else
            let '(p, ps) := newPromise (promises s) in
            let s1 := set_promises ps s in
            let s2 := set_terminateResolve (Some (ResolveOf p)) s1 in
            (set_terminatePromise (Some p) s2, Follows p)
      end
  end.

Definition generateId (s : state) : state * Z :=
  (set_id (id s + 1) s, id s + 1).

(** What [call(name, transfer)] returns: the arrow function, with the
    variables it closes over. *)
Record callable : Type := mkCallable {
  c_name : string;
  c_transfer : option (list value);
  c_worker : nat
}.

Definition terminating : value :=
  VError "Worker is terminating, cannot accept new tasks".

Definition call (name : string) (transfer : option (list value)) (s : state)
    : state * callable :=
  let '(s1, w) := getWorker s in
  (s1, mkCallable name transfer w).

(** Applying the function [call] returned to [args], when [postMessage]
    returns; the result is the promise it returns. *)
Definition apply (f : callable) (args : list value) (s : state) : state * nat :=
  let '(p, ps) := newPromise (promises s) in
  let s0 := set_promises ps s in
  match terminatePromise s0 with
  | Some _ =>
      (set_promises (invoke (RejectOf p) terminating (promises s0)) s0, p)
  | None =>
      let '(s1, i) := generateId s0 in
      let s2 := set_queue (<[i := mkEntry (ResolveOf p) (RejectOf p)]> (queue s1)) s1 in
      let data := MainMessage.mk i (c_name f) args in
      (set_workers (alter (postMessage data (c_transfer f)) (c_worker f) (workers s2)) s2, p)
  end.

(** Applying the function [call] returned when [postMessage] throws [e].
    While draining the executor returns before it reaches [postMessage], as
    in [apply].  Otherwise it has taken an identifier and stored the entry
    when [postMessage] throws; the exception ends the executor, and a
    promise whose executor throws is rejected with the exception.  Nothing
    is posted, and the entry stays in the registry. *)
Definition applyThrown (e : value) (s : state) : state * nat :=
  let '(p, ps) := newPromise (promises s) in
  let s0 := set_promises ps s in
  match terminatePromise s0 with
  | Some _ =>
      (set_promises (invoke (RejectOf p) terminating (promises s0)) s0, p)
  | None =>
      let '(s1, i) := generateId s0 in
      let s2 := set_queue (<[i := mkEntry (ResolveOf p) (RejectOf p)]> (queue s1)) s1 in
      (set_promises (invoke (RejectOf p) e (promises s2)) s2, p)
  end.

(** [worker.call(name, transfer)(...args)] in one expression, which is also
    what [worker[name](...args)] does, with no transfer list. *)
Definition request (name : string) (transfer : option (list value))
    (args : list value) (s : state) : state * nat :=
  let '(s1, f) := call name transfer s in apply f args s1.

(** Several calls made one after the other, before anything else runs,
    each given by its name, transfer list and arguments: the promises they
    return, in order. *)
Fixpoint requestAll (calls : list (string * option (list value) * list value))
    (s : state) : state * list nat :=
  match calls with
  | [] => (s, [])
  | (name, transfer, args) :: rest =>
      let '(s1, p) := request name transfer args s in
      let '(s2, ps) := requestAll rest s1 in
      (s2, p :: ps)
  end.

(** The requests posted so far to the current [Worker]. *)
Definition outbox (s : state) : list MainMessage.t :=
  match worker s with
  | Some w => (default [] (posted <$> workers s !! w)).*1
  | None => []
  end.

(** What a response does to the promise of its call:
    [data.error ? reject(data.payload) : resolve(data.payload)]. *)
Definition settlement (data : WorkerMessage.t) : promise :=
  if WorkerMessage.error data then Rejected (WorkerMessage.payload data)
  else Fulfilled (WorkerMessage.payload data).

(** [queue.forEach(({ reject }) => reject(e))], and the same calls made by
    mapping over [Array.from(queue.values())]. *)
Definition rejectEach (e : value) (ens : list entry) (ps : list promise) : list promise :=
  foldl (λ ps en, invoke (reject en) e ps) ps ens.

(** [queue.values()].  A [Map] iterates in insertion order, which the
    registry here does not record; each continuation settles the promise of
    its own call, so the order has no effect on the state. *)
Definition values (q : gmap Z entry) : list entry := (map_to_list q).*2.

(** The part of [handleMessage] that treats a call response. *)
Definition handleResponse (data : WorkerMessage.t) (s : state) : state :=
  match queue s !! WorkerMessage.id data with
  | None => s
  | Some en =>
      let s1 := set_queue (delete (WorkerMessage.id data) (queue s)) s in
      let k := if WorkerMessage.error data then reject en else resolve en in
      let s2 := set_promises (invoke k (WorkerMessage.payload data) (promises s1)) s1 in
      onTaskComplete s2
  end.

(** A function either returns or throws. *)
Inductive outcome (A : Type) : Type :=
  | Returns (a : A)
  | Throws (e : value).
Arguments Returns {A} a.
Arguments Throws {A} e.

Definition readOnly : value :=
  VError "Cannot set properties on typed worker proxy".

(** The [set] trap of the proxy. *)
Definition proxy_set (prop : string) (v : value) (s : state) : state * outcome unit :=
  (s, Throws readOnly).

(** The invocations of listeners that were added to [delivered] between
    two states. *)
Definition deliveries (s s' : state) : list (listener * list value) :=
  drop (length (delivered s)) (delivered s').

(** ** The revision without worker events *)

Module Index.

Definition handleMessage (data : WorkerMessage.t) (s : state) : state :=
  handleResponse data s.

Definition handleError (e : value) (s : state) : state :=
  let s1 := set_console (console s ++ [WorkerEncounteredError e]) s in
  let s2 := set_promises (rejectEach e (values (queue s1)) (promises s1)) s1 in
  let s3 := set_queue ∅ s2 in
  onTaskComplete s3.

(** What a property of the proxy evaluates to. *)
Inductive member : Type :=
  | Terminate
  | Call
  | Action (f : callable).

(** The [get] trap. *)
Definition proxy_get (prop : string) (s : state) : state * member :=
  if decide (prop = "terminate") then (s, Terminate)
  else if decide (prop = "call") then (s, Call)
  else let '(s1, f) := call prop None s in (s1, Action f).

(** What the application and the worker can do to the closure, one
    event-loop job at a time.  [Prepare] evaluates [worker.call(name,
    transfer)] or [worker[name]]; [Apply] calls a function so obtained.
    Any function may be applied and a message or an error may arrive at any
    time, also when no listener is attached: the reachable states below
    include those of every program whose calls of [postMessage] return. *)
Inductive op : Type :=
  | Prepare (name : string) (transfer : option (list value))
  | Apply (f : callable) (args : list value)
  | Request (name : string) (transfer : option (list value)) (args : list value)
  | Shutdown
  | Assign (prop : string) (v : value)
  | Message (data : WorkerMessage.t)
  | Failure (e : value).

Definition step (s : state) (o : op) : state :=
  match o with
  | Prepare name transfer => (call name transfer s).1
  | Apply f args => (apply f args s).1
  | Request name transfer args => (request name transfer args s).1
  | Shutdown => (terminate s).1
  | Assign prop v => (proxy_set prop v s).1
  | Message data => handleMessage data s
  | Failure e => handleError e s
  end.

Definition run (ops : list op) (s : state) : state := foldl step s ops.

Definition reachable (s : state) : Prop := ∃ ops, s = run ops initial.

(** The same jobs together with the applications of a function in which
    [postMessage] throws: the states of every program. *)
Inductive job : Type :=
  | Did (o : op)
  | ApplyThrown (e : value).

Definition advance (s : state) (j : job) : state :=
  match j with
  | Did o => step s o
  | ApplyThrown e => (applyThrown e s).1
  end.

Definition proceed (js : list job) (s : state) : state := foldl advance s js.

Definition attainable (s : state) : Prop := ∃ js, s = proceed js initial.

End Index.

(** ** The revision with [onWSE], [offWSE] and [clearWSE] *)

Module SentEvent.

(** An inbound message: a call response; an object with a [type], a
    [name] and a [payload] and no [id], as [emit] posts them; or an object
    that has a [type] besides the fields of a response. *)
Inductive message : Type :=
  | Response (data : WorkerMessage.t)
  | Tagged (type : string) (name : string) (payload : value)
  | Typed (type : string) (data : WorkerMessage.t).

Section Listeners.

(** What a listener does when called with the given arguments: it
    returns ([None]) or throws ([Some e]).  The listeners considered do
    not call the proxy while they run. *)
Variable behaviour : listener → list value → option value.

(** The callback given to [Array.from(eventHandles).map]. *)
Definition callHandle (name : string) (payload : value) (s : state) (handle : listener)
    : state :=
  let s1 := set_delivered (delivered s ++ [(handle, [payload])]) s in
  match behaviour handle [payload] with
  | None => s1
  | Some error => set_console (console s1 ++ [ErrorInEventHandler name error]) s1
  end.

(** What the [catch] blocks of one dispatch log. *)
Definition caught (name : string) (payload : value) (hs : list listener) : list log :=
  omap (λ h, ErrorInEventHandler name <$> behaviour h [payload]) hs.

Definition handleMessage (m : message) (s : state) : state * outcome unit :=
  match m with
  | Tagged type name payload =>
      if decide (type = "worker-sent-event") then
        match handles s !! name with
        | Some eventHandles => (foldl (callHandle name payload) s eventHandles, Returns ())
        | None => (s, Returns ())
        end
      else (s, Returns ())
  | Typed type data =>
      let name := WorkerMessage.name data in
      if decide (type = "worker-sent-event") then
        match handles s !! name with
        | Some eventHandles =>
            (foldl (callHandle name (WorkerMessage.payload data)) s eventHandles, Returns ())
        | None => (handleResponse data s, Returns ())
        end
      else (handleResponse data s, Returns ())
  | Response data => (handleResponse data s, Returns ())
  end.

End Listeners.

(** [handleError] is [async]: called with the event it runs up to its
    [await] and returns; the statements after the [await] run in a later
    microtask, on the state as it is by then.  The second component is
    that remainder. *)
Definition handleError (e : value) (s : state) : state * (state → state) :=
  let s1 := set_console (console s ++ [WorkerEncounteredError e]) s in
  let s2 := set_promises (rejectEach e (values (queue s1)) (promises s1)) s1 in
  (s2, λ s', onTaskComplete (set_queue ∅ s')).

(** [Set.prototype.add] and [Set.prototype.delete]. *)
Definition add (h : listener) (hs : list listener) : list listener :=
  if decide (h ∈ hs) then hs else hs ++ [h].

Definition remove (h : listener) (hs : list listener) : list listener :=
  filter (λ x, x ≠ h) hs.

Definition offWSE (name : string) (handler : listener) (s : state) : state :=
  match handles s !! name with
  | None => s
  | Some eventHandles => set_handles (<[name := remove handler eventHandles]> (handles s)) s
  end.

(** The result is the arrow function [() => offWSE(name, handler)], given
    by the two variables it closes over. *)
Definition onWSE (name : string) (handler : listener) (s : state)
    : state * (string * listener) :=
  let s1 := (getWorker s).1 in
  let s2 :=
    match handles s1 !! name with
    | None => set_handles (<[name := []]> (handles s1)) s1
    | Some _ => s1
    end in
  let eventHandles := default [] (handles s2 !! name) in
  (set_handles (<[name := add handler eventHandles]> (handles s2)) s2, (name, handler)).

Definition clearWSE (s : state) : state := set_handles ∅ s.

(** What a property of the proxy evaluates to. *)
Inductive member : Type :=
  | Terminate
  | Call
  | OnWSE
  | OffWSE
  | ClearWSE
  | Action (f : callable).

(** The [get] trap. *)
Definition proxy_get (prop : string) (s : state) : state * member :=
  if decide (prop = "terminate") then (s, Terminate)
  else if decide (prop = "call") then (s, Call)
  else if decide (prop = "onWSE") then (s, OnWSE)
  else if decide (prop = "offWSE") then (s, OffWSE)
  else if decide (prop = "clearWSE") then (s, ClearWSE)
  else let '(s1, f) := call prop None s in (s1, Action f).

(** [emit] of [setupWorkerSentEvent], on the worker side: the message it
    posts. *)
Definition emit (name : string) (payload : value) : SentEvent.message :=
  SentEvent.Tagged "worker-sent-event" name payload.

End SentEvent.

(** ** The revision with [onEvent], [offEvent] and [clearEvents] *)

Module SendEvent.

(** An inbound message: a call response, or an object with a [type],
    without an [id] as [sender] posts them ([Tagged]) or with one
    ([Typed]). *)
Inductive message : Type :=
  | Response (data : WorkerMessage.t)
  | Tagged (type : string) (name : string) (payload : list value)
  | Typed (type : string) (id : Z) (name : string) (payload : list value).

Section Listeners.

(** As in the other revision: a listener returns or throws, and does not
    call the proxy while it runs, so that the set [forEach] iterates is the
    one it started with. *)
Variable behaviour : listener → list value → option value.

(** [listeners.forEach((listener) => { listener(...data.payload) })]:
    an exception leaves the loop.  This is the loop for listeners that do
    not act on the proxy; [forEachLive] below is the loop for those that
    do. *)
Fixpoint forEach (listeners : list listener) (payload : list value) (s : state)
    : state * outcome unit :=
  match listeners with
  | [] => (s, Returns ())
  | l :: rest =>
      let s1 := set_delivered (delivered s ++ [(l, payload)]) s in
      match behaviour l payload with
      | Some e => (s1, Throws e)
      | None => forEach rest payload s1
      end
  end.

(** The listeners [forEach] calls: up to the first one that throws. *)
Fixpoint reached (payload : list value) (ls : list listener) : list listener :=
  match ls with
  | [] => []
  | l :: rest =>
      l :: match behaviour l payload with
           | Some _ => []
           | None => reached payload rest
           end
  end.

Definition handleMessage (m : message) (s : state) : state * outcome unit :=
  match m with
  | Tagged type name payload
  | Typed type _ name payload =>
      if decide (type ≠ "worker-send-event") then (s, Returns ())
      else
        match handles s !! name with
        | None => (s, Returns ())
        | Some listeners => forEach listeners payload s
        end
  | Response data => (handleResponse data s, Returns ())
  end.

End Listeners.

Definition handleError (e : value) (s : state) : state :=
  Index.handleError e s.

Definition offEvent (name : string) (l : listener) (s : state) : state :=
  match handles s !! name with
  | None => s
  | Some listeners =>
      set_handles (<[name := SentEvent.remove l listeners]> (handles s)) s
  end.

Definition onEvent (name : string) (l : listener) (s : state)
    : state * (string * listener) :=
  let s1 := (getWorker s).1 in
  let s2 :=
    match handles s1 !! name with
    | None => set_handles (<[name := []]> (handles s1)) s1
    | Some _ => s1
    end in
  let listeners := default [] (handles s2 !! name) in
  (set_handles (<[name := SentEvent.add l listeners]> (handles s2)) s2, (name, l)).

Definition clearEvents (name : option string) (s : state) : state :=
  match name with
  | Some n => set_handles (delete n (handles s)) s
  | None => set_handles ∅ s
  end.

(** What a listener may do to the proxy while it runs: [onEvent],
    [offEvent], [clearEvents], a call, [terminate]. *)
Inductive action : Type :=
  | DoOnEvent (name : string) (l : listener)
  | DoOffEvent (name : string) (l : listener)
  | DoClearEvents (name : option string)
  | DoCall (name : string) (transfer : option (list value)) (args : list value)
  | DoTerminate.

(** [Set.prototype.forEach] visits the elements of the set as it is when
    each is reached: one that is deleted before its turn is not visited,
    one that is added is visited at the end.  [pending] holds the elements
    still to visit.  [current] says whether the set being iterated is the
    one the [Map] has for the name: [clearEvents] drops it from the [Map],
    after which [offEvent] does not find it and [onEvent] starts another
    set. *)
Record iteration : Type := mkIteration { pending : list listener; current : bool }.

(** One action of a listener during the dispatch of an event of [name]. *)
Definition perform (name : string) (a : action) (si : state * iteration)
    : state * iteration :=
  let '(s, i) := si in
  match a with
  | DoOnEvent n l =>
      let fresh := bool_decide (l ∉ default [] (handles s !! n)) in
      ((onEvent n l s).1,
       if decide (n = name) then
         if current i && fresh then mkIteration (pending i ++ [l]) true else i
       else i)
  | DoOffEvent n l =>
      (offEvent n l s,
       if decide (n = name) then
         if current i then mkIteration (SentEvent.remove l (pending i)) true else i
       else i)
  | DoClearEvents None => (clearEvents None s, mkIteration (pending i) false)
  | DoClearEvents (Some n) =>
      (clearEvents (Some n) s,
       if decide (n = name) then mkIteration (pending i) false else i)
  | DoCall n transfer args => ((request n transfer args s).1, i)
  | DoTerminate => ((terminate s).1, i)
  end.

Section Live.

(** A listener called with the given arguments in the given state performs
    [script] and then returns or throws as [behaviour] says. *)
Variable behaviour : listener → list value → option value.
Variable script : listener → list value → state → list action.

(** [listeners.forEach] for listeners that may act on the proxy.  A
    listener that subscribes another one each time it is called keeps the
    loop going for ever; the result is [None] when [fuel] calls were not
    enough to see the end of it. *)
Fixpoint forEachLive (fuel : nat) (name : string) (payload : list value)
    (s : state) (i : iteration) : option (state * outcome unit) :=
  match fuel with
  | O => None
  | S fuel =>
      match pending i with
      | [] => Some (s, Returns ())
      | l :: rest =>
          let s1 := set_delivered (delivered s ++ [(l, payload)]) s in
          let '(s2, i2) :=
            foldl (λ si a, perform name a si) (s1, mkIteration rest (current i))
              (script l payload s1) in
          match behaviour l payload with
          | Some e => Some (s2, Throws e)
          | None => forEachLive fuel name payload s2 i2
          end
      end
  end.

Definition handleMessageLive (fuel : nat) (m : message) (s : state)
    : option (state * outcome unit) :=
  match m with
  | Tagged type name payload
  | Typed type _ name payload =>
      if decide (type ≠ "worker-send-event") then Some (s, Returns ())
      else
        match handles s !! name with
        | None => Some (s, Returns ())
        | Some listeners => forEachLive fuel name payload s (mkIteration listeners true)
        end
  | Response data => Some (handleResponse data s, Returns ())
  end.

End Live.

(** What a property of the proxy evaluates to, and the [get] trap. *)
Inductive member : Type :=
  | Terminate
  | Call
  | OnEvent
  | OffEvent
  | ClearEvents
  | Action (f : callable).

Definition proxy_get (prop : string) (s : state) : state * member :=
  if decide (prop = "terminate") then (s, Terminate)
  else if decide (prop = "call") then (s, Call)
  else if decide (prop = "onEvent") then (s, OnEvent)
  else if decide (prop = "offEvent") then (s, OffEvent)
  else if decide (prop = "clearEvents") then (s, ClearEvents)
  else let '(s1, f) := call prop None s in (s1, Action f).

(** [sender] of [defineWorkerSendEvent], on the worker side: the message
    it posts for [sender(name, ...payload)]. *)
Definition sender (name : string) (payload : list value) : SendEvent.message :=
  SendEvent.Tagged "worker-send-event" name payload.

End SendEvent.

(** ** The worker side *)

Module Remote.

(** The double quote character, as a string. *)
Definition quote : string := String (Ascii.ascii_of_nat 34) EmptyString.

(** The payload of the response to a request for an unknown action. *)
Definition notFound (name : string) : value :=
  VStr ("Action " +:+ quote +:+ name +:+ quote +:+ " not found").

Section Actions.

(** [String(err)], for what an action throws that is not an [Error]. *)
Variable toText : value → string.

(** [actions[data.name]], [None] when it is falsy.  An action is an
    [async] function: the promise it returns for given arguments is
    fulfilled ([Returns]), rejected ([Throws]; so is a synchronous throw),
    or never settles ([None]).  Results are values that [postMessage] can
    clone. *)
Variable actions : string → option (list value → option (outcome value)).

(** [err instanceof Error ? err.message : String(err)]. *)
Definition describe (err : value) : value :=
  VStr match err with VError message => message | _ => toText err end.

(** The [message] listener of [setupWorkerActions]: the response it posts
    for a request, if it ever posts one. *)
Definition onMessage (data : MainMessage.t) : option WorkerMessage.t :=
  match actions (MainMessage.name data) with
  | None =>
      Some (WorkerMessage.mk (MainMessage.id data) (MainMessage.name data)
              (notFound (MainMessage.name data)) true)
  | Some fn =>
      match fn (MainMessage.args data) with
      | None => None
      | Some (Returns result) =>
          Some (WorkerMessage.mk (MainMessage.id data) (MainMessage.name data) result false)
      | Some (Throws err) =>
          Some (WorkerMessage.mk (MainMessage.id data) (MainMessage.name data)
                  (describe err) true)
      end
  end.

(** How the promise of a call to [name] with [args] ends, when the
    response found its call. *)
Definition answer (name : string) (args : list value) : promise :=
  match actions name with
  | None => Rejected (notFound name)
  | Some fn =>
      match fn args with
      | None => Pending
      | Some (Returns result) => Fulfilled result
      | Some (Throws err) => Rejected (describe err)
      end
  end.

End Actions.

End Remote.

(** ** The invariant of the closure state *)

(** The shutdown variables agree; the completion signal of a draining
    channel is pending and is the promise of no call; every entry of the
    registry is keyed by an identifier already issued and holds the two
    continuations of a pending promise of its own; and the worker variable
    refers to a [Worker] that [setupWorker] returned. *)
Record coherent (s : state) : Prop := mkCoherent {
  coh_resolver : terminateResolve s = ResolveOf <$> terminatePromise s;
  coh_signal : ∀ t, terminatePromise s = Some t →
    is_Some (worker s) ∧ promises s !! t = Some Pending ∧
    ∀ k en, queue s !! k = Some en → promiseOf en ≠ t;
  coh_entry : ∀ k en, queue s !! k = Some en →
    0 < k ≤ id s ∧ paired en ∧ promises s !! promiseOf en = Some Pending;
  coh_distinct : ∀ k1 k2 en1 en2,
    queue s !! k1 = Some en1 → queue s !! k2 = Some en2 →
    promiseOf en1 = promiseOf en2 → k1 = k2;
  coh_id : 0 ≤ id s;
  coh_worker : ∀ w, worker s = Some w → (w < length (workers s))%nat
}.

(** Between two jobs of the event loop a draining channel has a pending
    call. *)
Definition consistent (s : state) : Prop :=
  coherent s ∧ (is_Some (terminatePromise s) → queue s ≠ ∅).

(** A promise that has not been fulfilled: pending or rejected. *)
Definition unfulfilled (ps : list promise) (p : nat) : Prop :=
  ps !! p = Some Pending ∨ ∃ e, ps !! p = Some (Rejected e).

(** The invariant that also holds after a [postMessage] that threw.  The
    entry of such a call stays in the registry with its promise rejected,
    so the promise of an entry is pending or rejected; the rest is as in
    [coherent]. *)
Record accounted (s : state) : Prop := mkAccounted {
  acc_resolver : terminateResolve s = ResolveOf <$> terminatePromise s;
  acc_signal : ∀ t, terminatePromise s = Some t →
    is_Some (worker s) ∧ promises s !! t = Some Pending ∧
    ∀ k en, queue s !! k = Some en → promiseOf en ≠ t;
  acc_entry : ∀ k en, queue s !! k = Some en →
    0 < k ≤ id s ∧ paired en ∧ unfulfilled (promises s) (promiseOf en);
  acc_distinct : ∀ k1 k2 en1 en2,
    queue s !! k1 = Some en1 → queue s !! k2 = Some en2 →
    promiseOf en1 = promiseOf en2 → k1 = k2;
  acc_id : 0 ≤ id s;
  acc_worker : ∀ w, worker s = Some w → (w < length (workers s))%nat
}.

Definition steady (s : state) : Prop :=
  accounted s ∧ (is_Some (terminatePromise s) → queue s ≠ ∅).

(** [failAll] as the specification words it: snapshot the pending entries,
    clear the registry, then call every failure continuation with the
    reason. *)
Definition failAll (reason : value) (s : state) : state :=
  let snapshot := values (queue s) in
  let s1 := set_queue ∅ s in
  set_promises (rejectEach reason snapshot (promises s1)) s1.

(** A [Worker] in use: not terminated, with exactly the three listeners. *)
Definition live (w : WorkerObj) : Prop :=
  terminated w = false ∧ attached w = listening.

(** The worker variable refers to a live [Worker] and every other [Worker]
    that was ever created is torn down. *)
Definition tidy (s : state) : Prop :=
  ∀ i wo, workers s !! i = Some wo →
    (worker s = Some i → live wo) ∧ (worker s ≠ Some i → tornDown wo).

(** * Properties *)

(** ** Promises *)

Lemma settle_length p o ps : length (settle p o ps) = length ps.
Proof. unfold settle. destruct (ps !! p) as [[]|]; by rewrite ?length_insert. Qed.

Lemma settle_other p q o ps : p ≠ q → settle p o ps !! q = ps !! q.
Proof.
  intros Hne. unfold settle.
  destruct (ps !! p) as [[]|]; try done. by apply list_lookup_insert_ne.
Qed.

Lemma settle_pending p o ps : ps !! p = Some Pending → settle p o ps !! p = Some o.
Proof.
  intros Hp. unfold settle. rewrite Hp.
  apply list_lookup_insert_eq. by eapply lookup_lt_Some.
Qed.

Lemma settle_settled p o ps : ps !! p ≠ Some Pending → settle p o ps = ps.
Proof. intros Hp. unfold settle. by destruct (ps !! p) as [[]|]. Qed.

Lemma invoke_length k v ps : length (invoke k v ps) = length ps.
Proof. destruct k; apply settle_length. Qed.

Lemma invoke_other k v ps q : target k ≠ q → invoke k v ps !! q = ps !! q.
Proof. destruct k; simpl; apply settle_other. Qed.

Lemma invoke_settled k v ps : ps !! target k ≠ Some Pending → invoke k v ps = ps.
Proof. destruct k; simpl; apply settle_settled. Qed.

(** A settled promise stays as it is, whatever is invoked. *)
Lemma invoke_keeps k v ps q o : ps !! q = Some o → o ≠ Pending → invoke k v ps !! q = Some o.
Proof.
  intros Hq Ho. destruct (decide (target k = q)) as [<-|Hne].
  - rewrite invoke_settled by (rewrite Hq; congruence). done.
  - by rewrite invoke_other.
Qed.

Lemma rejectEach_length e ens ps : length (rejectEach e ens ps) = length ps.
Proof.
  revert ps. induction ens as [|en ens IH]; intros ps; simpl; [done|].
  unfold rejectEach in *. simpl. by rewrite IH, invoke_length.
Qed.

Lemma rejectEach_other e ens ps q :
  (∀ en, en ∈ ens → target (reject en) ≠ q) → rejectEach e ens ps !! q = ps !! q.
Proof.
  revert ps. induction ens as [|en ens IH]; intros ps Hq; [done|].
  unfold rejectEach in *. simpl. rewrite IH.
  - apply invoke_other, Hq. left.
  - intros en' Hen'. apply Hq. by right.
Qed.

Lemma rejectEach_keeps e ens ps q o :
  ps !! q = Some o → o ≠ Pending → rejectEach e ens ps !! q = Some o.
Proof.
  revert ps. induction ens as [|en ens IH]; intros ps Hq Ho; [done|].
  unfold rejectEach in *. simpl. apply IH; [|done]. by apply invoke_keeps.
Qed.

Lemma paired_reject en : paired en → reject en = RejectOf (promiseOf en).
Proof. intros ->. done. Qed.

Lemma paired_resolve en : paired en → resolve en = ResolveOf (promiseOf en).
Proof. intros ->. done. Qed.

Lemma rejectEach_rejects e ens ps en :
  (∀ en', en' ∈ ens → paired en') →
  en ∈ ens → ps !! promiseOf en = Some Pending →
  rejectEach e ens ps !! promiseOf en = Some (Rejected e).
Proof.
  revert ps. induction ens as [|en' ens IH]; intros ps Hwf Hin Hp.
  - by apply elem_of_nil in Hin.
  - unfold rejectEach in *. simpl.
    assert (paired en') as Hen' by (apply Hwf; left).
    rewrite (paired_reject _ Hen'). simpl.
    destruct (decide (promiseOf en' = promiseOf en)) as [Heq|Hne].
    + apply rejectEach_keeps; [|done]. rewrite Heq. by apply settle_pending.
    + apply elem_of_cons in Hin as [->|Hin]; [done|].
      apply IH; [|done|].
      * intros ? ?. apply Hwf. by right.
      * by rewrite settle_other.
Qed.

Lemma settle_comm p q o ps :
  settle p o (settle q o ps) = settle q o (settle p o ps).
Proof.
  destruct (decide (p = q)) as [->|Hne]; [done|].
  unfold settle at 1 3. rewrite !settle_other by done.
  unfold settle.
  destruct (ps !! p) as [[]|] eqn:Hp, (ps !! q) as [[]|] eqn:Hq; try done.
  by apply list_insert_insert_ne.
Qed.

(** A [Map] iterates in insertion order; the promises [rejectEach] leaves
    do not depend on the order. *)
Lemma rejectEach_permutation e ens ens' ps :
  Forall paired ens → ens ≡ₚ ens' → rejectEach e ens ps = rejectEach e ens' ps.
Proof.
  intros Hwf Hperm. revert ps.
  induction Hperm as [|en ens ens' _ IH|en1 en2 ens|ens1 ens2 ens3 H12 IH12 H23 IH23];
    intros ps.
  - done.
  - apply Forall_cons in Hwf as [_ Hwf]. unfold rejectEach in *. simpl. by apply IH.
  - apply Forall_cons in Hwf as [H2 Hwf]. apply Forall_cons in Hwf as [H1 _].
    unfold rejectEach. simpl.
    rewrite (paired_reject _ H1), (paired_reject _ H2). simpl.
    by rewrite settle_comm.
  - rewrite IH12 by done. apply IH23. by rewrite <- H12.
Qed.

(** ** Preservation of the invariant *)

Lemma coherent_initial : coherent initial.
Proof. split; simpl; try done. Qed.

Lemma consistent_initial : consistent initial.
Proof. split; [apply coherent_initial|]. simpl. by intros []. Qed.

(** [getWorker] and [terminateWorker] touch [worker] and [workers] only. *)
Lemma getWorker_fields s :
  let s' := (getWorker s).1 in
  terminateResolve s' = terminateResolve s ∧ terminatePromise s' = terminatePromise s ∧
  queue s' = queue s ∧ id s' = id s ∧ handles s' = handles s ∧
  promises s' = promises s ∧ console s' = console s ∧ delivered s' = delivered s ∧
  worker s' = Some (getWorker s).2.
Proof. unfold getWorker. destruct (worker s) eqn:Hw; simpl; auto 10. Qed.

Lemma getWorker_idle s w : worker s = Some w → getWorker s = (s, w).
Proof. unfold getWorker. by intros ->. Qed.

Lemma terminateWorker_fields s :
  let s' := terminateWorker s in
  terminateResolve s' = terminateResolve s ∧ terminatePromise s' = terminatePromise s ∧
  queue s' = queue s ∧ id s' = id s ∧ handles s' = handles s ∧
  promises s' = promises s ∧ console s' = console s ∧ delivered s' = delivered s ∧
  worker s' = None.
Proof. unfold terminateWorker. destruct (worker s) eqn:Hw; simpl; auto 10. Qed.

Lemma getWorker_in_range s :
  (∀ w, worker s = Some w → (w < length (workers s))%nat) →
  ((getWorker s).2 < length (workers (getWorker s).1))%nat.
Proof.
  unfold getWorker. destruct (worker s) as [w|] eqn:Hw; simpl.
  - intros H. by apply H.
  - intros _. rewrite !length_alter, length_app. simpl. lia.
Qed.

Lemma coherent_getWorker s : coherent s → coherent (getWorker s).1.
Proof.
  intros [H1 H2 H3 H4 H5 H6].
  destruct (getWorker_fields s) as (E1 & E2 & E3 & E4 & _ & E6 & _ & _ & E9).
  split; rewrite ?E1, ?E2, ?E3, ?E4, ?E6; try done.
  - intros t Ht. destruct (H2 t Ht) as (_ & ? & ?). rewrite E9. eauto.
  - intros w. rewrite E9. intros [= <-]. by apply getWorker_in_range.
Qed.

Lemma coherent_call name transfer s : coherent s → coherent (call name transfer s).1.
Proof.
  intros H. unfold call. pose proof (coherent_getWorker s H) as H'.
  by destruct (getWorker s).
Qed.

Lemma lookup_newPromise_old (ps : list promise) p o :
  ps !! p = Some o → (ps ++ [Pending]) !! p = Some o.
Proof. intros Hp. rewrite lookup_app_l; [done|]. by eapply lookup_lt_Some. Qed.

Lemma lookup_newPromise_new (ps : list promise) :
  (ps ++ [Pending]) !! length ps = Some Pending.
Proof. by rewrite lookup_app_r, Nat.sub_diag. Qed.

Lemma lookup_Some_ne_length (ps : list promise) p o : ps !! p = Some o → p ≠ length ps.
Proof. intros Hp%lookup_lt_Some. lia. Qed.

Lemma coherent_apply f args s : coherent s → coherent (apply f args s).1.
Proof.
  intros [H1 H2 H3 H4 H5 H6]. unfold apply, newPromise. simpl.
  destruct (terminatePromise s) as [t|] eqn:Ht; simpl.
  - split; simpl; rewrite ?Ht; try done.
    + intros t' [= <-]. destruct (H2 t eq_refl) as (Hw & Hp & Hq).
      split_and!; [done| |done].
      rewrite settle_other by (symmetry; by eapply lookup_Some_ne_length).
      by apply lookup_newPromise_old.
    + intros k en Hk. destruct (H3 k en Hk) as (? & ? & Hp). split; [done|split; [done|]].
      rewrite settle_other by (symmetry; by eapply lookup_Some_ne_length).
      by apply lookup_newPromise_old.
  - split; simpl; rewrite ?Ht; try done.
    + intros k en. rewrite lookup_insert. case_decide as Hk.
      * intros [= <-]. subst k. split; [lia|split; [done|]]. simpl.
        apply lookup_newPromise_new.
      * intros Hen. destruct (H3 k en Hen) as (? & ? & Hp). split; [lia|split; [done|]].
        by apply lookup_newPromise_old.
    + intros k1 k2 en1 en2. rewrite !lookup_insert.
      repeat case_decide; subst; try done.
      * intros [= <-] Hen2 Heq. destruct (H3 _ _ Hen2) as (_ & _ & Hp).
        apply lookup_Some_ne_length in Hp. unfold promiseOf in *. simpl in *. congruence.
      * intros Hen1 [= <-] Heq. destruct (H3 _ _ Hen1) as (_ & _ & Hp).
        apply lookup_Some_ne_length in Hp. simpl in Heq. unfold promiseOf in *. simpl in *. congruence.
      * apply H4.
    + lia.
    + intros w Hw. rewrite length_alter. by apply H6.
Qed.

Lemma coherent_terminateWorker s :
  coherent s → terminatePromise s = None → coherent (terminateWorker s).
Proof.
  intros [H1 H2 H3 H4 H5 H6] Hn.
  destruct (terminateWorker_fields s) as (E1 & E2 & E3 & E4 & _ & E6 & _ & _ & E9).
  split; rewrite ?E1, ?E2, ?E3, ?E4, ?E6, ?E9; try done.
  rewrite Hn. done.
Qed.

Lemma size_queue_zero (q : gmap Z entry) : size q = 0%nat ↔ q = ∅.
Proof. apply map_size_empty_iff. Qed.

Lemma coherent_terminate s : coherent s → coherent (terminate s).1.
Proof.
  intros H. unfold terminate.
  destruct (worker s) as [w|] eqn:Hw; [|done].
  destruct (terminatePromise s) as [t|] eqn:Ht; [done|].
  case_decide as Hsz; simpl.
  - by apply coherent_terminateWorker.
  - destruct H as [H1 H2 H3 H4 H5 H6]. split; simpl; try done.
    + intros t [= <-]. rewrite Hw. split; [eauto|]. split.
      * apply lookup_newPromise_new.
      * intros k en Hen. destruct (H3 k en Hen) as (_ & _ & Hp).
        by eapply lookup_Some_ne_length.
    + intros k en Hen. destruct (H3 k en Hen) as (? & ? & Hp).
      split; [done|split; [done|]]. by apply lookup_newPromise_old.
Qed.

Lemma consistent_terminate s : consistent s → consistent (terminate s).1.
Proof.
  intros [H Hd]. split; [by apply coherent_terminate|].
  unfold terminate.
  destruct (worker s) as [w|] eqn:Hw; [|done].
  destruct (terminatePromise s) as [t|] eqn:Ht; [simpl; by rewrite Ht|].
  case_decide as Hsz; simpl.
  - destruct (terminateWorker_fields s) as (_ & E2 & _). rewrite E2, Ht. by intros [].
  - intros _ Hq. apply Hsz. by apply size_queue_zero.
Qed.

(** [checkTerminateComplete] restores the invariant that a draining
    channel has a pending call. *)
Lemma consistent_checkTerminateComplete s :
  coherent s → consistent (checkTerminateComplete s).
Proof.
  intros H. unfold checkTerminateComplete.
  destruct (terminatePromise s) as [t|] eqn:Ht.
  2:{ split; [done|]. rewrite Ht. by intros []. }
  destruct (terminateResolve s) as [k|] eqn:Hk.
  2:{ destruct H as [H1 _ _ _ _ _]. rewrite Ht, Hk in H1. done. }
  case_decide as Hsz.
  - apply size_queue_zero in Hsz.
    set (s3 := set_id 0 (set_terminatePromise None (set_terminateResolve None s))).
    destruct (terminateWorker_fields s3) as (E1 & E2 & E3 & E4 & _ & E6 & _ & _ & E9).
    split; [split|]; simpl; rewrite ?E1, ?E2, ?E3, ?E4, ?E6, ?E9; simpl; rewrite ?Hsz; try done.
  - split; [done|]. intros _ Hq. apply Hsz. by apply size_queue_zero.
Qed.

Lemma coherent_handleResponse_settled data s en :
  coherent s → queue s !! WorkerMessage.id data = Some en →
  coherent
    (set_promises
       (invoke (if WorkerMessage.error data then reject en else resolve en)
          (WorkerMessage.payload data) (promises s))
       (set_queue (delete (WorkerMessage.id data) (queue s)) s)).
Proof.
  intros [H1 H2 H3 H4 H5 H6] Hen.
  destruct (H3 _ _ Hen) as (_ & Hpair & _).
  assert (target (if WorkerMessage.error data then reject en else resolve en) = promiseOf en)
    as Htarget.
  { rewrite Hpair. by destruct (WorkerMessage.error data). }
  split; simpl; try done.
  - intros t Ht. destruct (H2 t Ht) as (Hw & Hp & Hq). split; [done|]. split.
    + rewrite invoke_other; [done|]. rewrite Htarget. by eapply Hq.
    + intros k en'. rewrite lookup_delete. case_decide; [done|]. apply Hq.
  - intros k en'. rewrite lookup_delete. case_decide as Hk; [done|]. intros Hen'.
    destruct (H3 _ _ Hen') as (? & ? & Hp). split; [done|split; [done|]].
    rewrite invoke_other; [done|]. rewrite Htarget. intros Heq.
    apply Hk. symmetry. by eapply H4.
  - intros k1 k2 en1 en2. rewrite !lookup_delete. repeat case_decide; try done. apply H4.
Qed.

Lemma consistent_handleResponse data s : consistent s → consistent (handleResponse data s).
Proof.
  intros [H Hd]. unfold handleResponse.
  destruct (queue s !! WorkerMessage.id data) as [en|] eqn:Hen; [|done].
  apply consistent_checkTerminateComplete.
  exact (coherent_handleResponse_settled data s en H Hen).
Qed.

Lemma elem_of_values (q : gmap Z entry) en : en ∈ values q ↔ ∃ k, q !! k = Some en.
Proof.
  unfold values. rewrite list_elem_of_fmap. split.
  - intros ([k en'] & -> & Hin). exists k. by apply elem_of_map_to_list.
  - intros (k & Hk). exists (k, en). split; [done|]. by apply elem_of_map_to_list.
Qed.

Lemma consistent_handleError e s : consistent s → consistent (Index.handleError e s).
Proof.
  intros [H Hd]. unfold Index.handleError, onTaskComplete.
  apply consistent_checkTerminateComplete. simpl.
  destruct H as [H1 H2 H3 H4 H5 H6]. split; simpl; try done.
  intros t Ht. destruct (H2 t Ht) as (Hw & Hp & Hq). split; [done|]. split; [|done].
  rewrite rejectEach_other; [done|].
  intros en (k & Hk)%elem_of_values. destruct (H3 _ _ Hk) as (_ & Hpair & _).
  rewrite (paired_reject _ Hpair). simpl. by eapply Hq.
Qed.

Lemma consistent_call name transfer s : consistent s → consistent (call name transfer s).1.
Proof.
  intros [H Hd]. split; [by apply coherent_call|].
  unfold call. destruct (getWorker_fields s) as (_ & E2 & E3 & _).
  destruct (getWorker s) as [s1 w]. simpl in *. by rewrite E2, E3.
Qed.

Lemma consistent_apply f args s : consistent s → consistent (apply f args s).1.
Proof.
  intros [H Hd]. split; [by apply coherent_apply|].
  unfold apply, newPromise. simpl.
  destruct (terminatePromise s) as [t|] eqn:Ht; simpl.
  - rewrite Ht. done.
  - rewrite Ht. by intros [].
Qed.

Lemma consistent_step s o : consistent s → consistent (Index.step s o).
Proof.
  intros H. destruct o; simpl.
  - by apply consistent_call.
  - by apply consistent_apply.
  - unfold request. pose proof (consistent_call name transfer s H) as H'.
    destruct (call name transfer s) as [s1 f]. by apply consistent_apply.
  - by apply consistent_terminate.
  - done.
  - by apply consistent_handleResponse.
  - by apply consistent_handleError.
Qed.

Lemma consistent_run ops s : consistent s → consistent (Index.run ops s).
Proof.
  revert s. induction ops as [|o ops IH]; intros s H; [done|].
  simpl. apply IH. by apply consistent_step.
Qed.

Lemma reachable_consistent s : Index.reachable s → consistent s.
Proof. intros [ops ->]. apply consistent_run, consistent_initial. Qed.

(** ** Responses *)

Lemma checkTerminateComplete_queue s : queue (checkTerminateComplete s) = queue s.
Proof.
  unfold checkTerminateComplete.
  destruct (terminatePromise s), (terminateResolve s); try done.
  case_decide; [|done]. simpl.
  by destruct (terminateWorker_fields
    (set_id 0 (set_terminatePromise None (set_terminateResolve None s)))) as (_ & _ & -> & _).
Qed.

Lemma checkTerminateComplete_keeps s q o :
  promises s !! q = Some o → o ≠ Pending →
  promises (checkTerminateComplete s) !! q = Some o.
Proof.
  intros Hq Ho. unfold checkTerminateComplete.
  destruct (terminatePromise s), (terminateResolve s); try done.
  case_decide; [|done]. simpl. apply invoke_keeps; [|done].
  by destruct (terminateWorker_fields
    (set_id 0 (set_terminatePromise None (set_terminateResolve None s))))
    as (_ & _ & _ & _ & _ & -> & _).
Qed.

Lemma checkTerminateComplete_other s q :
  (∀ k, terminateResolve s = Some k → target k ≠ q) →
  promises (checkTerminateComplete s) !! q = promises s !! q.
Proof.
  intros Hq. unfold checkTerminateComplete.
  destruct (terminatePromise s); [|done].
  destruct (terminateResolve s) as [k|]; [|done].
  case_decide; [|done]. simpl. rewrite invoke_other by by apply Hq.
  by destruct (terminateWorker_fields
    (set_id 0 (set_terminatePromise None (set_terminateResolve None s))))
    as (_ & _ & _ & _ & _ & -> & _).
Qed.

Lemma handleResponse_queue data s :
  queue (handleResponse data s) = delete (WorkerMessage.id data) (queue s).
Proof.
  unfold handleResponse, onTaskComplete.
  destruct (queue s !! WorkerMessage.id data) eqn:Hen.
  - by rewrite checkTerminateComplete_queue.
  - symmetry. by apply delete_id.
Qed.

Lemma handleResponse_keeps data s q o :
  promises s !! q = Some o → o ≠ Pending →
  promises (handleResponse data s) !! q = Some o.
Proof.
  intros Hq Ho. unfold handleResponse, onTaskComplete.
  destruct (queue s !! WorkerMessage.id data); [|done].
  apply checkTerminateComplete_keeps; [|done]. simpl. by apply invoke_keeps.
Qed.

Lemma settlement_pending data : settlement data ≠ Pending.
Proof. unfold settlement. by destruct (WorkerMessage.error data). Qed.

Lemma handleResponse_settles data s en :
  coherent s → queue s !! WorkerMessage.id data = Some en →
  promises (handleResponse data s) !! promiseOf en = Some (settlement data).
Proof.
  intros H Hen. unfold handleResponse, onTaskComplete. rewrite Hen.
  apply checkTerminateComplete_keeps; [|apply settlement_pending]. simpl.
  destruct (coh_entry s H _ _ Hen) as (_ & Hpair & Hp).
  unfold settlement. rewrite Hpair. simpl.
  destruct (WorkerMessage.error data); simpl; by apply settle_pending.
Qed.

Lemma run_responses_cons r rs s :
  Index.run (Index.Message <$> (r :: rs)) s
  = Index.run (Index.Message <$> rs) (handleResponse r s).
Proof. done. Qed.

Lemma run_responses_keeps rs s q o :
  promises s !! q = Some o → o ≠ Pending →
  promises (Index.run (Index.Message <$> rs) s) !! q = Some o.
Proof.
  revert s. induction rs as [|r rs IH]; intros s Hq Ho; [done|].
  rewrite run_responses_cons. apply IH; [|done]. by apply handleResponse_keeps.
Qed.

(** Whatever the order of the responses, a pending call is settled by the
    response that carries its identifier. *)
Lemma responses_settle rs s r en :
  consistent s → NoDup (WorkerMessage.id <$> rs) →
  r ∈ rs → queue s !! WorkerMessage.id r = Some en →
  promises (Index.run (Index.Message <$> rs) s) !! promiseOf en = Some (settlement r).
Proof.
  revert s. induction rs as [|r' rs IH]; intros s Hs Hnd Hin Hen.
  - by apply elem_of_nil in Hin.
  - rewrite run_responses_cons. rewrite fmap_cons in Hnd.
    apply NoDup_cons in Hnd as [Hnotin Hnd].
    destruct (decide (WorkerMessage.id r' = WorkerMessage.id r)) as [Heq|Hne].
    + assert (r = r') as <-.
      { apply elem_of_cons in Hin as [?|Hin]; [done|].
        exfalso. apply Hnotin. rewrite Heq. by apply list_elem_of_fmap_2. }
      apply run_responses_keeps; [|apply settlement_pending].
      apply handleResponse_settles; [apply Hs|done].
    + apply elem_of_cons in Hin as [->|Hin]; [done|].
      apply IH; [by apply consistent_handleResponse|done..|].
      rewrite handleResponse_queue. by rewrite lookup_delete_ne.
Qed.

(** ** Requests *)

Lemma outbox_getWorker s :
  outbox (getWorker s).1 = outbox s.
Proof.
  unfold getWorker. destruct (worker s) as [w|] eqn:Hw; simpl; [done|].
  unfold outbox. rewrite Hw. simpl.
  rewrite !list_lookup_alter_eq, lookup_app_r, Nat.sub_diag by lia. done.
Qed.

Lemma apply_admitted f args s :
  terminatePromise s = None →
  apply f args s =
    (set_workers
       (alter (postMessage (MainMessage.mk (id s + 1) (c_name f) args) (c_transfer f))
          (c_worker f) (workers s))
       (set_queue
          (<[id s + 1 := mkEntry (ResolveOf (length (promises s))) (RejectOf (length (promises s)))]>
             (queue s))
          (set_id (id s + 1) (set_promises (promises s ++ [Pending]) s))),
     length (promises s)).
Proof. intros Hn. unfold apply, newPromise. simpl. by rewrite Hn. Qed.

Lemma apply_refused f args s t :
  terminatePromise s = Some t →
  apply f args s =
    (set_promises (promises s ++ [Rejected terminating]) s, length (promises s)).
Proof.
  intros Hn. unfold apply, newPromise. simpl. rewrite Hn.
  assert (settle (length (promises s)) (Rejected terminating) (promises s ++ [Pending])
          = promises s ++ [Rejected terminating]) as ->; [|done].
  unfold settle. rewrite lookup_newPromise_new.
  replace (length (promises s)) with (length (promises s) + 0)%nat at 1 by lia.
  by rewrite insert_app_r.
Qed.

(** What an admitted request does. *)
Lemma request_admitted name transfer args s :
  coherent s → terminatePromise s = None →
  let s' := (request name transfer args s).1 in
  (request name transfer args s).2 = length (promises s) ∧
  promises s' = promises s ++ [Pending] ∧
  id s' = id s + 1 ∧
  queue s' =
    <[id s + 1 := mkEntry (ResolveOf (length (promises s))) (RejectOf (length (promises s)))]>
      (queue s) ∧
  outbox s' = outbox s ++ [MainMessage.mk (id s + 1) name args] ∧
  terminatePromise s' = None.
Proof.
  intros Hs Hn. unfold request, call.
  destruct (getWorker_fields s) as (E1 & E2 & E3 & E4 & E5 & E6 & E7 & E8 & E9).
  pose proof (getWorker_in_range s (coh_worker s Hs)) as Hrange.
  pose proof (outbox_getWorker s) as Hout.
  destruct (getWorker s) as [s1 w]. simpl in *.
  rewrite apply_admitted by by rewrite E2. simpl.
  rewrite E2, E3, E4, E6. split_and!; try done.
  unfold outbox in *. simpl. rewrite E9 in *.
  rewrite list_lookup_alter_eq. rewrite <- Hout.
  destruct (workers s1 !! w) as [wo|] eqn:Hwo; simpl.
  - by rewrite fmap_app.
  - apply lookup_ge_None in Hwo. lia.
Qed.

Lemma consistent_request name transfer args s :
  consistent s → consistent (request name transfer args s).1.
Proof.
  intros H. unfold request. pose proof (consistent_call name transfer s H) as H'.
  destruct (call name transfer s) as [s1 f]. by apply consistent_apply.
Qed.

(** The requests a batch of calls posts, and where their continuations are
    kept. *)
Lemma requestAll_registers calls s :
  consistent s → terminatePromise s = None →
  let s1 := (requestAll calls s).1 in
  consistent s1 ∧ terminatePromise s1 = None ∧
  (∀ k en, queue s !! k = Some en → queue s1 !! k = Some en) ∧
  ∃ sent,
    outbox s1 = outbox s ++ sent ∧
    (λ m, (MainMessage.name m, MainMessage.args m)) <$> sent
      = (λ c, (c.1.1, c.2)) <$> calls ∧
    Forall2 (λ p m, ∃ en, queue s1 !! MainMessage.id m = Some en ∧ promiseOf en = p)
      (requestAll calls s).2 sent.
Proof.
  revert s. induction calls as [|[[name transfer] args] calls IH]; intros s Hs Hn; simpl.
  - split_and!; try done. exists []. by rewrite app_nil_r.
  - pose proof (consistent_request name transfer args s Hs) as Hs'.
    destruct (request_admitted name transfer args s (proj1 Hs) Hn)
      as (Hp & Hps & Hid & Hq & Hout & Hn').
    destruct (request name transfer args s) as [s' p]. simpl in *.
    destruct (IH s' Hs' Hn') as (Hs1 & Hn1 & Hold & sent & Hsent & Hcalls & Hall).
    destruct (requestAll calls s') as [s1 ps]. simpl in *.
    split_and!; try done.
    + intros k en Hk. apply Hold. rewrite Hq, lookup_insert_ne; [done|].
      destruct (coh_entry s (proj1 Hs) _ _ Hk) as (? & _). lia.
    + exists (MainMessage.mk (id s + 1) name args :: sent). split_and!.
      * by rewrite Hsent, Hout, <- app_assoc.
      * rewrite fmap_cons. simpl. by f_equal.
      * constructor; [|done]. simpl. eexists. split.
        -- apply Hold. rewrite Hq. apply lookup_insert_eq.
        -- by rewrite Hp.
Qed.

Lemma handleMessage_frame r s k :
  k ≠ WorkerMessage.id r → queue (Index.handleMessage r s) !! k = queue s !! k.
Proof.
  intros Hk. unfold Index.handleMessage. rewrite handleResponse_queue.
  by apply lookup_delete_ne.
Qed.

(** C1. Calls issued one after the other from a reachable state that is not
    draining each return a promise and post one request, in order, with the
    call's name and arguments.  Whatever responses then arrive, in whatever
    order, as long as no two carry the same identifier: the promise
    returned by the i-th call is settled by the response that carries the
    identifier of the i-th request, with that response's payload.  And a
    response leaves the registry entry of every other identifier as it
    was. *)
Theorem calls_settle_by_identifier
    (calls : list (string * option (list value) * list value))
    (rs : list WorkerMessage.t) (s : state) :
  Index.reachable s →
  terminatePromise s = None →
  NoDup (WorkerMessage.id <$> rs) →
  let s1 := (requestAll calls s).1 in
  let returned := (requestAll calls s).2 in
  let sent := drop (length (outbox s)) (outbox s1) in
  (λ m, (MainMessage.name m, MainMessage.args m)) <$> sent
    = (λ c, (c.1.1, c.2)) <$> calls ∧
  length returned = length calls ∧
  (∀ i p m r,
     returned !! i = Some p → sent !! i = Some m →
     r ∈ rs → WorkerMessage.id r = MainMessage.id m →
     promises (Index.run (Index.Message <$> rs) s1) !! p = Some (settlement r)) ∧
  (∀ s' r k,
     k ≠ WorkerMessage.id r →
     queue (Index.handleMessage r s') !! k = queue s' !! k).
Proof.
  intros Hreach Hn Hnd s1 returned sent.
  apply reachable_consistent in Hreach.
  destruct (requestAll_registers calls s Hreach Hn)
    as (Hs1 & Hn1 & Hold & sent' & Hsent & Hcalls & Hall).
  assert (sent = sent') as ->.
  { unfold sent, s1. by rewrite Hsent, drop_app_length. }
  split_and!.
  - done.
  - apply Forall2_length in Hall. fold returned in Hall. rewrite Hall.
    rewrite <- (length_fmap (λ c, (c.1.1, c.2)) calls).
    by rewrite <- Hcalls, length_fmap.
  - intros i p m r Hp Hm Hr Hid.
    destruct (Forall2_lookup_lr _ _ _ _ _ _ Hall Hp Hm) as (en & Hen & <-).
    apply responses_settle; [done..|]. by rewrite Hid.
  - intros s' r k. apply handleMessage_frame.
Qed.

Lemma calls_settle_by_identifier_witness :
  promises
    (Index.run
       (Index.Message <$>
          [WorkerMessage.mk 3 "print" (VStr "x") false;
           WorkerMessage.mk 1 "add" (VNum 3) false;
           WorkerMessage.mk 2 "throwError" (VStr "boom") true])
       (requestAll
          [("add", None, [VNum 1; VNum 2]); ("throwError", None, []);
           ("print", None, [VStr "x"])]
          initial).1)
    !! 1%nat
  = Some (Rejected (VStr "boom")).
Proof.
  refine (proj1 (proj2 (proj2
    (calls_settle_by_identifier
       [("add", None, [VNum 1; VNum 2]); ("throwError", None, []);
        ("print", None, [VStr "x"])]
       [WorkerMessage.mk 3 "print" (VStr "x") false;
        WorkerMessage.mk 1 "add" (VNum 3) false;
        WorkerMessage.mk 2 "throwError" (VStr "boom") true]
       initial _ _ _)))
    1%nat 1%nat (MainMessage.mk 2 "throwError" [])
    (WorkerMessage.mk 2 "throwError" (VStr "boom") true) _ _ _ _).
  - by exists [].
  - reflexivity.
  - apply (bool_decide_unpack _). vm_compute. exact I.
  - reflexivity.
  - reflexivity.
  - do 2 right. left.
  - reflexivity.
Defined.

(** ** Creating and tearing down the worker *)

Lemma alter_last {A} (f : A → A) (l : list A) (x : A) :
  alter f (length l) (l ++ [x]) = l ++ [f x].
Proof.
  replace (length l) with (length l + 0)%nat at 1 by lia.
  by rewrite alter_app_r.
Qed.

Lemma getWorker_fresh s :
  worker s = None →
  getWorker s =
    (set_worker (Some (length (workers s)))
       (set_workers (workers s ++ [mkWorker listening false []]) s),
     length (workers s)).
Proof.
  intros Hw. unfold getWorker, setupWorker. rewrite Hw. simpl.
  rewrite !alter_last. done.
Qed.

Lemma terminateWorker_tornDown s w :
  worker s = Some w → (w < length (workers s))%nat →
  ∃ wo, workers (terminateWorker s) !! w = Some wo ∧ tornDown wo.
Proof.
  intros Hw Hlt. unfold terminateWorker. rewrite Hw. simpl.
  destruct (lookup_lt_is_Some_2 _ _ Hlt) as [wo Hwo].
  rewrite !list_lookup_alter_eq, Hwo. simpl. eexists. split; [done|].
  split; [done|]. simpl. intros a Ha.
  rewrite !list_elem_of_filter. unfold listening in Ha.
  rewrite !elem_of_cons, elem_of_nil in Ha. intros (H3 & H2 & H1 & _).
  destruct Ha as [->|[->|[->|[]]]]; congruence.
Qed.

(** ** [checkTerminateComplete] *)

Lemma checkTerminateComplete_fires s t :
  terminatePromise s = Some t → terminateResolve s = Some (ResolveOf t) → queue s = ∅ →
  checkTerminateComplete s =
    let s1 := terminateWorker (set_id 0 (set_terminatePromise None (set_terminateResolve None s))) in
    set_promises (invoke (ResolveOf t) VUndefined (promises s1)) s1.
Proof.
  intros Ht Hk Hq. unfold checkTerminateComplete. rewrite Ht, Hk.
  rewrite decide_True; [done|]. by apply size_queue_zero.
Qed.

Lemma checkTerminateComplete_waits s : queue s ≠ ∅ → checkTerminateComplete s = s.
Proof.
  intros Hq. unfold checkTerminateComplete.
  destruct (terminatePromise s), (terminateResolve s); try done.
  rewrite decide_False; [done|]. by rewrite size_queue_zero.
Qed.

Lemma checkTerminateComplete_idle s : terminatePromise s = None → checkTerminateComplete s = s.
Proof. intros Ht. unfold checkTerminateComplete. by rewrite Ht. Qed.

Lemma restored_fields s :
  terminatePromise (restored s) = None ∧ terminateResolve (restored s) = None ∧
  id (restored s) = 0 ∧ worker (restored s) = None ∧
  queue (restored s) = queue s ∧ promises (restored s) = promises s.
Proof.
  unfold restored.
  destruct (terminateWorker_fields
    (set_id 0 (set_terminatePromise None (set_terminateResolve None s))))
    as (E1 & E2 & E3 & E4 & E5 & E6 & E7 & E8 & E9).
  by rewrite E1, E2, E3, E4, E6, E9.
Qed.

(** One step of a draining channel: either the registry is empty afterwards,
    the channel is torn down and the completion signal is fulfilled, or the
    registry is not empty and the channel is still draining. *)
Lemma draining_step s t o :
  consistent s → terminatePromise s = Some t →
  let s' := Index.step s o in
  (queue s' = ∅ ∧ terminatePromise s' = None ∧ worker s' = None ∧
   promises s' !! t = Some (Fulfilled VUndefined))
  ∨ (queue s' ≠ ∅ ∧ terminatePromise s' = Some t ∧ promises s' !! t = Some Pending).
Proof.
  intros [Hs Hd] Ht.
  assert (queue s ≠ ∅) as Hq by (apply Hd; rewrite Ht; eauto).
  destruct (coh_signal s Hs t Ht) as ([w Hw] & Hp & Hother).
  assert (terminateResolve s = Some (ResolveOf t)) as Hk.
  { rewrite (coh_resolver s Hs), Ht. done. }
  assert (∀ name transfer, call name transfer s = (s, mkCallable name transfer w)) as Hcall.
  { intros. unfold call. by rewrite (getWorker_idle s w Hw). }
  assert (∀ f args, let s' := (apply f args s).1 in
            queue s' ≠ ∅ ∧ terminatePromise s' = Some t ∧ promises s' !! t = Some Pending)
    as Happly.
  { intros f args. rewrite (apply_refused f args s t Ht). simpl.
    split_and!; [done..|]. by apply lookup_app_l_Some. }
  destruct o; simpl.
  - rewrite Hcall. simpl. by right.
  - right. apply Happly.
  - unfold request. rewrite Hcall. right. apply Happly.
  - unfold terminate. rewrite Hw, Ht. simpl. by right.
  - by right.
  - unfold Index.handleMessage, handleResponse, onTaskComplete.
    destruct (queue s !! WorkerMessage.id data) as [en|] eqn:Hen; [|by right].
    set (s2 := set_promises _ _).
    assert (promises s2 !! t = Some Pending) as Hp2.
    { unfold s2. simpl. rewrite invoke_other; [done|].
      destruct (coh_entry s Hs _ _ Hen) as (_ & Hpair & _).
      rewrite Hpair. specialize (Hother _ _ Hen).
      by destruct (WorkerMessage.error data). }
    destruct (decide (queue s2 = ∅)) as [Hq2|Hq2].
    + left. rewrite (checkTerminateComplete_fires s2 t) by done. simpl.
      destruct (restored_fields s2) as (E1 & E2 & E3 & E4 & E5 & E6).
      fold (restored s2). rewrite E1, E4, E5, E6. split_and!; try done.
      by apply settle_pending.
    + right. by rewrite checkTerminateComplete_waits.
  - left. unfold Index.handleError, onTaskComplete.
    set (s3 := set_queue _ _).
    assert (promises s3 !! t = Some Pending) as Hp3.
    { unfold s3. simpl. rewrite rejectEach_other; [done|].
      intros en (k & Hen)%elem_of_values.
      destruct (coh_entry s Hs _ _ Hen) as (_ & Hpair & _).
      rewrite (paired_reject _ Hpair). simpl. by eapply Hother. }
    rewrite (checkTerminateComplete_fires s3 t) by done. simpl.
    destruct (restored_fields s3) as (E1 & E2 & E3 & E4 & E5 & E6).
    fold (restored s3). rewrite E1, E4, E5, E6. split_and!; try done.
    by apply settle_pending.
Qed.

(** C2. In a reachable state that is draining, [call(name, transfer)]
    creates nothing and applying the function it returns (or any function
    [call] returned earlier) yields a new promise that is already rejected
    with the fixed error; the only change to the state is that promise:
    the registry, the identifier counter and every [Worker] with the
    messages posted to it are as before. *)
Theorem call_refused_while_draining
    (s : state) (t : nat) (name : string) (transfer : option (list value))
    (args : list value) :
  Index.reachable s →
  terminatePromise s = Some t →
  let s' := (request name transfer args s).1 in
  let p := (request name transfer args s).2 in
  (call name transfer s).1 = s ∧
  (∀ f, apply f args s = (s', p)) ∧
  s' = set_promises (promises s ++ [Rejected terminating]) s ∧
  promises s !! p = None ∧
  promises s' !! p
    = Some (Rejected (VError "Worker is terminating, cannot accept new tasks")) ∧
  queue s' = queue s ∧ id s' = id s ∧ workers s' = workers s.
Proof.
  intros Hs%reachable_consistent Ht s' p.
  destruct (coh_signal s (proj1 Hs) t Ht) as ([w Hw] & _).
  assert (call name transfer s = (s, mkCallable name transfer w)) as Hcall.
  { unfold call. by rewrite (getWorker_idle s w Hw). }
  assert (s' = set_promises (promises s ++ [Rejected terminating]) s
          ∧ p = length (promises s)) as [Hs' Hp].
  { unfold s', p, request. rewrite Hcall. by rewrite (apply_refused _ args s t Ht). }
  split_and!.
  - by rewrite Hcall.
  - intros f. rewrite Hs', Hp. by apply (apply_refused f args s t).
  - done.
  - rewrite Hp. by apply lookup_ge_None.
  - rewrite Hs', Hp. simpl. by apply list_lookup_middle.
  - by rewrite Hs'.
  - by rewrite Hs'.
  - by rewrite Hs'.
Qed.

Lemma call_refused_while_draining_witness :
  let s := Index.run [Index.Request "longTimeTask" None [VNum 1000]; Index.Shutdown] initial in
  promises (request "add" None [VNum 1; VNum 2] s).1
    !! (request "add" None [VNum 1; VNum 2] s).2
  = Some (Rejected (VError "Worker is terminating, cannot accept new tasks")).
Proof.
  intros s.
  refine (proj1 (proj2 (proj2 (proj2 (proj2
    (call_refused_while_draining s 1%nat "add" None [VNum 1; VNum 2] _ _)))))).
  - by exists [Index.Request "longTimeTask" None [VNum 1000]; Index.Shutdown].
  - reflexivity.
Defined.

(** C5. [terminate()] in a reachable state.  With no worker it changes
    nothing and completes at once.  While draining it changes nothing and
    every call returns the one pending signal.  With a worker and an empty
    registry it tears the worker down in the same call and completes at
    once.  With a worker and pending calls it creates the signal, pending,
    and starts draining; and from then on, after each step the signal is
    fulfilled if and only if the registry is empty after that step, the
    channel being still draining on the same signal otherwise. *)
Theorem terminate_cases (s : state) :
  Index.reachable s →
  (worker s = None → terminate s = (s, Completed)) ∧
  (∀ t, terminatePromise s = Some t →
     terminate s = (s, Follows t) ∧ terminate (terminate s).1 = (s, Follows t)) ∧
  (∀ w, worker s = Some w → terminatePromise s = None → queue s = ∅ →
     (terminate s).2 = Completed ∧
     worker (terminate s).1 = None ∧
     terminatePromise (terminate s).1 = None ∧
     ∃ wo, workers (terminate s).1 !! w = Some wo ∧ tornDown wo) ∧
  (∀ w, worker s = Some w → terminatePromise s = None → queue s ≠ ∅ →
     let t := length (promises s) in
     (terminate s).2 = Follows t ∧
     terminatePromise (terminate s).1 = Some t ∧
     promises (terminate s).1 !! t = Some Pending ∧
     worker (terminate s).1 = Some w ∧
     queue (terminate s).1 = queue s ∧
     workers (terminate s).1 = workers s) ∧
  (∀ t o, terminatePromise s = Some t →
     let s' := Index.step s o in
     (promises s' !! t = Some (Fulfilled VUndefined) ↔ queue s' = ∅) ∧
     (queue s' ≠ ∅ → terminatePromise s' = Some t ∧ promises s' !! t = Some Pending)).
Proof.
  intros Hs%reachable_consistent. split_and!.
  - intros Hw. unfold terminate. by rewrite Hw.
  - intros t Ht.
    destruct (coh_signal s (proj1 Hs) t Ht) as ([w Hw] & _).
    assert (terminate s = (s, Follows t)) as Hterm.
    { unfold terminate. by rewrite Hw, Ht. }
    by rewrite Hterm.
  - intros w Hw Ht Hq. unfold terminate. rewrite Hw, Ht.
    rewrite decide_True by by apply size_queue_zero. simpl.
    destruct (terminateWorker_fields s) as (_ & E2 & _ & _ & _ & _ & _ & _ & E9).
    rewrite E2, E9. split_and!; try done.
    apply terminateWorker_tornDown; [done|]. by apply (coh_worker s (proj1 Hs)).
  - intros w Hw Ht Hq. unfold terminate. rewrite Hw, Ht.
    rewrite decide_False by by rewrite size_queue_zero. simpl.
    split_and!; try done. apply lookup_newPromise_new.
  - intros t o Ht s'.
    destruct (draining_step s t o Hs Ht) as [(Hq & _ & _ & Hp)|(Hq & Hd & Hp)];
      fold s' in Hq, Hp.
    + split; [by split|]. done.
    + split; [|done]. split; [|done]. rewrite Hp. done.
Qed.

Lemma terminate_cases_witness :
  let s := Index.run [Index.Request "longTimeTask" None [VNum 1000]; Index.Shutdown] initial in
  terminate s = (s, Follows 1%nat) ∧ terminate (terminate s).1 = (s, Follows 1%nat).
Proof.
  intros s.
  refine (proj1 (proj2 (terminate_cases s _)) 1%nat _).
  - by exists [Index.Request "longTimeTask" None [VNum 1000]; Index.Shutdown].
  - reflexivity.
Defined.

(** C8. A response whose identifier is not in the registry leaves the whole
    state as it was: no promise is settled, the registry, the listener
    registry, the counter and the shutdown variables keep their values and
    nothing is logged; and the handler returns normally in the revisions
    where it can throw.  This holds in each revision of [handleMessage]. *)
Theorem unknown_response_ignored
    (behaviour : listener → list value → option value)
    (data : WorkerMessage.t) (s : state) :
  queue s !! WorkerMessage.id data = None →
  Index.handleMessage data s = s ∧
  SentEvent.handleMessage behaviour (SentEvent.Response data) s = (s, Returns ()) ∧
  SendEvent.handleMessage behaviour (SendEvent.Response data) s = (s, Returns ()).
Proof.
  intros Hq. unfold Index.handleMessage. simpl.
  unfold handleResponse. by rewrite Hq.
Qed.

Lemma unknown_response_ignored_witness :
  let s := Index.run [Index.Request "add" None [VNum 1; VNum 2]] initial in
  let data := WorkerMessage.mk 7 "add" (VNum 3) false in
  Index.handleMessage data s = s ∧
  SentEvent.handleMessage (λ _ _, None) (SentEvent.Response data) s = (s, Returns ()) ∧
  SendEvent.handleMessage (λ _ _, None) (SendEvent.Response data) s = (s, Returns ()).
Proof.
  intros s data. apply (unknown_response_ignored (λ _ _, None) data s). reflexivity.
Defined.

(** C9. Assigning any value to any property of the proxy throws the fixed
    error and leaves the state, hence every property read afterwards,
    as it was. *)
Theorem proxy_is_read_only (prop : string) (v : value) (s : state) :
  proxy_set prop v s
    = (s, Throws (VError "Cannot set properties on typed worker proxy")) ∧
  ∀ prop', Index.proxy_get prop' (proxy_set prop v s).1 = Index.proxy_get prop' s.
Proof. done. Qed.

(** C10. When the response to the only pending call arrives while draining,
    [resolve()] of the completion signal is called in a state where the
    shutdown variables are null, the counter is zero, the worker variable
    is null and its [Worker] is torn down, the signal being still pending
    there.  In the state the handler leaves, the signal is fulfilled and a
    new call is admitted: it creates a new [Worker] with the three
    listeners, posts its request there with identifier 1 and its promise is
    pending in the registry under 1. *)
Theorem last_response_restores_state
    (s : state) (t : nat) (data : WorkerMessage.t) (en : entry) :
  Index.reachable s →
  terminatePromise s = Some t →
  queue s = {[WorkerMessage.id data := en]} →
  let s' := Index.handleMessage data s in
  ∃ s1,
    s' = set_promises (invoke (ResolveOf t) VUndefined (promises s1)) s1 ∧
    terminatePromise s1 = None ∧ terminateResolve s1 = None ∧
    id s1 = 0 ∧ worker s1 = None ∧ queue s1 = ∅ ∧
    (∃ w wo, worker s = Some w ∧ workers s1 !! w = Some wo ∧ tornDown wo) ∧
    promises s1 !! t = Some Pending ∧
    promises s' !! t = Some (Fulfilled VUndefined) ∧
    ∀ name transfer args,
      let s2 := (request name transfer args s').1 in
      let p := (request name transfer args s').2 in
      worker s2 = Some (length (workers s')) ∧
      workers s' !! length (workers s') = None ∧
      workers s2 !! length (workers s')
        = Some (mkWorker listening false [(MainMessage.mk 1 name args, transfer)]) ∧
      id s2 = 1 ∧
      queue s2 = {[1 := mkEntry (ResolveOf p) (RejectOf p)]} ∧
      promises s2 !! p = Some Pending ∧
      terminatePromise s2 = None.
Proof.
  intros Hs%reachable_consistent Ht Hq s'.
  destruct (coh_signal s (proj1 Hs) t Ht) as ([w Hw] & Hp & Hother).
  assert (terminateResolve s = Some (ResolveOf t)) as Hk.
  { rewrite (coh_resolver s (proj1 Hs)), Ht. done. }
  assert (queue s !! WorkerMessage.id data = Some en) as Hen.
  { rewrite Hq. apply lookup_singleton_eq. }
  destruct (coh_entry s (proj1 Hs) _ _ Hen) as (_ & Hpair & _).
  set (s2 := set_promises
       (invoke (if WorkerMessage.error data then reject en else resolve en)
          (WorkerMessage.payload data) (promises s))
       (set_queue (delete (WorkerMessage.id data) (queue s)) s)).
  assert (promises s2 !! t = Some Pending) as Hp2.
  { unfold s2. simpl. rewrite invoke_other; [done|].
    rewrite Hpair. specialize (Hother _ _ Hen).
    by destruct (WorkerMessage.error data). }
  assert (queue s2 = ∅) as Hq2.
  { unfold s2. simpl. rewrite Hq. apply delete_singleton_eq. }
  assert (s' = set_promises (invoke (ResolveOf t) VUndefined (promises (restored s2)))
                 (restored s2)) as Hs'.
  { unfold s', Index.handleMessage, handleResponse, onTaskComplete. rewrite Hen.
    change (checkTerminateComplete s2
            = set_promises (invoke (ResolveOf t) VUndefined (promises (restored s2)))
                (restored s2)).
    by rewrite (checkTerminateComplete_fires s2 t). }
  destruct (restored_fields s2) as (E1 & E2 & E3 & E4 & E5 & E6).
  exists (restored s2). split_and!; try done.
  - by rewrite E5.
  - destruct (terminateWorker_tornDown
      (set_id 0 (set_terminatePromise None (set_terminateResolve None s2))) w)
      as (wo & Hwo & Htorn); [done|by apply (coh_worker s (proj1 Hs))|].
    by exists w, wo.
  - by rewrite E6.
  - rewrite Hs'. simpl. rewrite E6. by apply settle_pending.
  - intros name transfer args. simpl.
    assert (worker s' = None) as Hw' by (by rewrite Hs').
    assert (terminatePromise s' = None) as Ht' by (by rewrite Hs').
    assert (id s' = 0) as Hid' by (by rewrite Hs').
    assert (queue s' = ∅) as Hq' by (rewrite Hs'; simpl; by rewrite E5).
    unfold request, call. rewrite (getWorker_fresh s' Hw').
    rewrite apply_admitted by done. simpl.
    rewrite alter_last, Hid', Hq'. simpl.
    split_and!; try done.
    + by apply lookup_ge_None.
    + by apply list_lookup_middle.
    + apply lookup_newPromise_new.
Qed.

Lemma last_response_restores_state_witness :
  let s := Index.run [Index.Request "longTimeTask" None [VNum 1000]; Index.Shutdown] initial in
  let s' := Index.handleMessage (WorkerMessage.mk 1 "longTimeTask" (VStr "done") false) s in
  ∃ s1,
    s' = set_promises (invoke (ResolveOf 1%nat) VUndefined (promises s1)) s1 ∧
    terminatePromise s1 = None ∧ terminateResolve s1 = None ∧
    id s1 = 0 ∧ worker s1 = None ∧ queue s1 = ∅ ∧
    (∃ w wo, worker s = Some w ∧ workers s1 !! w = Some wo ∧ tornDown wo) ∧
    promises s1 !! 1%nat = Some Pending ∧
    promises s' !! 1%nat = Some (Fulfilled VUndefined) ∧
    ∀ name transfer args,
      let s2 := (request name transfer args s').1 in
      let p := (request name transfer args s').2 in
      worker s2 = Some (length (workers s')) ∧
      workers s' !! length (workers s') = None ∧
      workers s2 !! length (workers s')
        = Some (mkWorker listening false [(MainMessage.mk 1 name args, transfer)]) ∧
      id s2 = 1 ∧
      queue s2 = {[1 := mkEntry (ResolveOf p) (RejectOf p)]} ∧
      promises s2 !! p = Some Pending ∧
      terminatePromise s2 = None.
Proof.
  intros s s'.
  refine (last_response_restores_state s 1%nat
    (WorkerMessage.mk 1 "longTimeTask" (VStr "done") false)
    (mkEntry (ResolveOf 0%nat) (RejectOf 0%nat)) _ _ _).
  - by exists [Index.Request "longTimeTask" None [VNum 1000]; Index.Shutdown].
  - reflexivity.
  - reflexivity.
Defined.

(** ** Worker events *)

Section Dispatch.

Variable behaviour : listener → list value → option value.

Lemma callHandle_fold name payload hs s :
  foldl (SentEvent.callHandle behaviour name payload) s hs
  = set_console (console s ++ SentEvent.caught behaviour name payload hs)
      (set_delivered (delivered s ++ ((λ h, (h, [payload])) <$> hs)) s).
Proof.
  revert s. induction hs as [|h hs IH]; intros s.
  - simpl. rewrite !app_nil_r. by destruct s.
  - simpl. rewrite IH. unfold SentEvent.callHandle, SentEvent.caught. simpl.
    destruct (behaviour h [payload]); simpl; by rewrite <- ?app_assoc.
Qed.

Lemma forEach_delivered ls payload s :
  delivered (SendEvent.forEach behaviour ls payload s).1
  = delivered s ++ ((λ l, (l, payload)) <$> SendEvent.reached behaviour payload ls).
Proof.
  revert s. induction ls as [|l ls IH]; intros s; simpl.
  - by rewrite app_nil_r.
  - destruct (behaviour l payload); simpl.
    + done.
    + rewrite IH. simpl. by rewrite <- app_assoc.
Qed.

Lemma reached_subseteq payload ls l : l ∈ SendEvent.reached behaviour payload ls → l ∈ ls.
Proof.
  induction ls as [|l' ls IH]; simpl; [done|].
  rewrite !elem_of_cons. intros [->|Hin]; [by left|].
  destruct (behaviour l' payload); [by apply elem_of_nil in Hin|]. right. by apply IH.
Qed.

Lemma reached_remove payload h ls l :
  l ≠ h → l ∈ SendEvent.reached behaviour payload ls → l ∈ SendEvent.reached behaviour payload (SentEvent.remove h ls).
Proof.
  intros Hne. unfold SentEvent.remove.
  induction ls as [|l' ls IH]; simpl; [done|].
  rewrite elem_of_cons. intros Hin.
  rewrite filter_cons. case_decide as Hl'; simpl.
  - rewrite elem_of_cons. destruct Hin as [->|Hin]; [by left|]. right.
    destruct (behaviour l' payload); [done|]. by apply IH.
  - subst l'. destruct Hin as [->|Hin]; [done|].
    destruct (behaviour h payload); [by apply elem_of_nil in Hin|]. by apply IH.
Qed.

Lemma reached_all payload ls :
  Forall (λ l, behaviour l payload = None) ls →
  SendEvent.reached behaviour payload ls = ls.
Proof.
  induction ls as [|l ls IH]; intros Hall; simpl; [done|].
  apply Forall_cons in Hall as [-> Hall]. by rewrite IH.
Qed.

Lemma sent_deliveries name payload s :
  deliveries s
    (SentEvent.handleMessage behaviour (SentEvent.Tagged "worker-sent-event" name payload) s).1
  = (λ h, (h, [payload])) <$> default [] (handles s !! name).
Proof.
  unfold deliveries. simpl.
  destruct (handles s !! name) as [hs|]; simpl.
  - rewrite callHandle_fold. simpl. by rewrite drop_app_length.
  - by rewrite drop_all.
Qed.

Lemma send_deliveries name payload s :
  deliveries s
    (SendEvent.handleMessage behaviour (SendEvent.Tagged "worker-send-event" name payload) s).1
  = (λ l, (l, payload)) <$> SendEvent.reached behaviour payload (default [] (handles s !! name)).
Proof.
  unfold deliveries. simpl.
  destruct (handles s !! name) as [ls|]; simpl.
  - rewrite forEach_delivered. by rewrite drop_app_length.
  - by rewrite drop_all.
Qed.

End Dispatch.

Lemma remove_absent h (hs : list listener) : h ∉ hs → SentEvent.remove h hs = hs.
Proof.
  intros Hh. unfold SentEvent.remove. induction hs as [|x hs IH]; [done|].
  apply not_elem_of_cons in Hh as [Hx Hh].
  rewrite filter_cons_True by done. by rewrite IH.
Qed.

Lemma set_handles_id s : set_handles (handles s) s = s.
Proof. by destruct s. Qed.

Lemma offWSE_handles name h s :
  handles (SentEvent.offWSE name h s) !! name = SentEvent.remove h <$> handles s !! name.
Proof.
  unfold SentEvent.offWSE. destruct (handles s !! name) as [hs|] eqn:Hhs; simpl.
  - by rewrite lookup_insert_eq.
  - by rewrite Hhs.
Qed.

Lemma tagged_elem {A B} (x : A) (payload : B) (ls : list A) :
  (x, payload) ∈ (λ l, (l, payload)) <$> ls ↔ x ∈ ls.
Proof.
  rewrite list_elem_of_fmap. split.
  - by intros (y & [= ->] & Hy).
  - intros Hx. by exists x.
Qed.

(** C7. [offWSE] and [offEvent] have the same text: they remove the given
    listener from the set of the given event name and change nothing else.
    A dispatch for that name afterwards does not call the removed listener,
    and calls every other listener that a dispatch before the removal
    called.  With [onWSE] the listeners called afterwards are exactly the
    other listeners of the set, in their order.  With [onEvent] they are
    exactly those [forEach] reaches in the set without the removed
    listener: all the others, in their order, when none of them throws, and
    those up to the first that throws otherwise.  When the listener is not
    in the set, or the name has no set, the state is unchanged.  Neither
    function has a path that throws: both are total functions on the
    state. *)
Theorem unsubscribe_removes_that_listener
    (behaviour : listener → list value → option value)
    (name : string) (h : listener) (s : state) :
  SendEvent.offEvent name h s = SentEvent.offWSE name h s ∧
  (∀ hs, handles s !! name = Some hs →
     SentEvent.offWSE name h s
     = set_handles (<[name := filter (λ x, x ≠ h) hs]> (handles s)) s) ∧
  (∀ payload,
     let sent := SentEvent.Tagged "worker-sent-event" name payload in
     let before := deliveries s (SentEvent.handleMessage behaviour sent s).1 in
     let s' := SentEvent.offWSE name h s in
     let after := deliveries s' (SentEvent.handleMessage behaviour sent s').1 in
     ((h, [payload]) ∉ after) ∧
     (∀ h', h' ≠ h → (h', [payload]) ∈ before → (h', [payload]) ∈ after) ∧
     (∀ hs h', handles s !! name = Some hs → h' ∈ hs → h' ≠ h →
        (h', [payload]) ∈ after) ∧
     (∀ hs, handles s !! name = Some hs →
        after = (λ h', (h', [payload])) <$> filter (λ x, x ≠ h) hs)) ∧
  (∀ payload,
     let sent := SendEvent.Tagged "worker-send-event" name payload in
     let before := deliveries s (SendEvent.handleMessage behaviour sent s).1 in
     let s' := SendEvent.offEvent name h s in
     let after := deliveries s' (SendEvent.handleMessage behaviour sent s').1 in
     ((h, payload) ∉ after) ∧
     (∀ h', h' ≠ h → (h', payload) ∈ before → (h', payload) ∈ after) ∧
     (∀ ls, handles s !! name = Some ls →
        after
        = (λ l, (l, payload))
            <$> SendEvent.reached behaviour payload (filter (λ x, x ≠ h) ls)) ∧
     (∀ ls, handles s !! name = Some ls →
        Forall (λ l, behaviour l payload = None) (filter (λ x, x ≠ h) ls) →
        after = (λ l, (l, payload)) <$> filter (λ x, x ≠ h) ls ∧
        ∀ h', h' ∈ ls → h' ≠ h → (h', payload) ∈ after)) ∧
  ((∀ hs, handles s !! name = Some hs → h ∉ hs) →
     SentEvent.offWSE name h s = s ∧ SendEvent.offEvent name h s = s).
Proof.
  split_and!.
  - done.
  - intros hs Hhs. unfold SentEvent.offWSE. by rewrite Hhs.
  - intros payload sent before s' after. unfold before, after, sent.
    rewrite !sent_deliveries. unfold s'. rewrite offWSE_handles.
    destruct (handles s !! name) as [hs|]; simpl.
    + split_and!.
      * rewrite tagged_elem. unfold SentEvent.remove.
        rewrite list_elem_of_filter. by intros [? _].
      * intros h' Hne. rewrite !tagged_elem. unfold SentEvent.remove.
        rewrite list_elem_of_filter. done.
      * intros hs' h' [= <-] Hin Hne. rewrite tagged_elem. unfold SentEvent.remove.
        rewrite list_elem_of_filter. done.
      * by intros hs' [= <-].
    + split_and!; [apply not_elem_of_nil|done|done|done].
  - intros payload sent before s' after. unfold before, after, sent.
    rewrite !send_deliveries. unfold s'.
    change (SendEvent.offEvent name h s) with (SentEvent.offWSE name h s).
    rewrite offWSE_handles.
    destruct (handles s !! name) as [hs|]; simpl.
    + split_and!.
      * rewrite tagged_elem. intros Hin%reached_subseteq.
        unfold SentEvent.remove in Hin. apply list_elem_of_filter in Hin. by destruct Hin.
      * intros h' Hne. rewrite !tagged_elem. by apply reached_remove.
      * by intros ls [= <-].
      * intros ls [= <-] Hall. unfold SentEvent.remove.
        rewrite (reached_all behaviour payload _ Hall). split; [done|].
        intros h' Hin Hne. rewrite tagged_elem, list_elem_of_filter. done.
    + split_and!; [apply not_elem_of_nil|done|done|done].
  - intros Habsent. change (SendEvent.offEvent name h s) with (SentEvent.offWSE name h s).
    split; [|].
    all: unfold SentEvent.offWSE;
      destruct (handles s !! name) as [hs|] eqn:Hhs; [|done];
      rewrite (remove_absent h hs) by (by apply Habsent);
      rewrite insert_id by done; apply set_handles_id.
Qed.

(** ** Transport errors *)

(** In the revisions where [handleError] is not [async], a transport error
    is logged, then handled as [failAll] followed by [onTaskComplete]: the
    registry is empty when the handler returns and every call that was
    pending is rejected with the error. *)
Theorem failure_rejects_every_pending_call (e : value) (s : state) :
  Index.reachable s →
  let s' := Index.handleError e s in
  s' = onTaskComplete (failAll e (set_console (console s ++ [WorkerEncounteredError e]) s)) ∧
  SendEvent.handleError e s = s' ∧
  size (queue s') = 0%nat ∧
  ∀ k en, queue s !! k = Some en → promises s' !! promiseOf en = Some (Rejected e).
Proof.
  intros Hs%reachable_consistent s'. split_and!; try done.
  - unfold s', Index.handleError, onTaskComplete. by rewrite checkTerminateComplete_queue.
  - intros k en Hen. unfold s', Index.handleError, onTaskComplete.
    apply checkTerminateComplete_keeps; [|done]. simpl.
    destruct (coh_entry s (proj1 Hs) _ _ Hen) as (_ & _ & Hp).
    apply rejectEach_rejects; [|by apply elem_of_values; eauto|done].
    intros en' (k' & Hen')%elem_of_values.
    by destruct (coh_entry s (proj1 Hs) _ _ Hen') as (_ & ? & _).
Qed.

Lemma failure_rejects_every_pending_call_witness :
  let s := Index.run [Index.Request "add" None [VNum 1]; Index.Request "add" None [VNum 2]] initial in
  promises (Index.handleError (VEvent "error") s) !! 1%nat = Some (Rejected (VEvent "error")).
Proof.
  intros s.
  refine (proj2 (proj2 (proj2 (failure_rejects_every_pending_call (VEvent "error") s _)))
    2 (mkEntry (ResolveOf 1%nat) (RejectOf 1%nat)) _).
  - by exists [Index.Request "add" None [VNum 1]; Index.Request "add" None [VNum 2]].
  - reflexivity.
Defined.

(** C3. The [async] [handleError]: when the handler returns, the pending
    calls are rejected but the registry is as it was; it is cleared by the
    statements after the [await].  With one call pending: after the handler
    the registry still holds one entry (it is empty after the handler of the
    other revisions); a call made before the remainder runs is admitted and
    posted with identifier 2; the remainder then clears the registry, the
    promise of that call is left pending with no entry, and its response is
    dropped. *)
Theorem async_handleError_clears_late :
  (∀ e s, queue (SentEvent.handleError e s).1 = queue s) ∧
  let e := VEvent "error" in
  let s := (request "add" None [VNum 1; VNum 2] initial).1 in
  let s1 := (SentEvent.handleError e s).1 in
  let remainder := (SentEvent.handleError e s).2 in
  let s2 := (request "add" None [VNum 3; VNum 4] s1).1 in
  let p := (request "add" None [VNum 3; VNum 4] s1).2 in
  let s3 := remainder s2 in
  promises s1 !! 0%nat = Some (Rejected e) ∧
  size (queue s1) = 1%nat ∧
  size (queue (Index.handleError e s)) = 0%nat ∧
  outbox s2 = [MainMessage.mk 1 "add" [VNum 1; VNum 2]; MainMessage.mk 2 "add" [VNum 3; VNum 4]] ∧
  queue s2 !! 2 = Some (mkEntry (ResolveOf p) (RejectOf p)) ∧
  queue s3 = ∅ ∧
  promises s3 !! p = Some Pending ∧
  handleResponse (WorkerMessage.mk 2 "add" (VNum 7) false) s3 = s3.
Proof. split; [done|]. vm_compute. split_and!; reflexivity. Qed.

(** C4. [terminate] never writes [id].  After one call and its response,
    [terminate()] finds the registry empty and tears the worker down, and
    the counter is still 1: the next call creates a new worker and posts
    its request with identifier 2. *)
Theorem idle_terminate_keeps_counter :
  (∀ s, id (terminate s).1 = id s) ∧
  let s := Index.run [Index.Request "add" None [VNum 1; VNum 2];
                      Index.Message (WorkerMessage.mk 1 "add" (VNum 3) false)] initial in
  let s' := (terminate s).1 in
  let s2 := (request "add" None [VNum 4; VNum 2] s').1 in
  queue s = ∅ ∧ worker s = Some 0%nat ∧ id s = 1 ∧
  worker s' = None ∧ terminated <$> workers s' !! 0%nat = Some true ∧
  id s' = 1 ∧
  worker s2 = Some 1%nat ∧
  outbox s2 = [MainMessage.mk 2 "add" [VNum 4; VNum 2]].
Proof.
  split.
  - intros s. unfold terminate.
    destruct (worker s); [|done]. destruct (terminatePromise s); [done|].
    case_decide; simpl; [|done].
    by destruct (terminateWorker_fields s) as (_ & _ & _ & -> & _).
  - vm_compute. split_and!; reflexivity.
Qed.

(** C6. In the revision with [onEvent], with two listeners on one event
    name of which the first throws: the exception leaves [handleMessage],
    the second listener is not called and nothing is logged.  The revision
    with [onWSE], on the same registry, calls both, logs the exception and
    returns. *)
Theorem listener_exception_escapes_forEach :
  let behaviour := λ (l : listener) (_ : list value),
    if decide (l = 0%nat) then Some (VError "boom") else None in
  let s := (SendEvent.onEvent "count" 1%nat (SendEvent.onEvent "count" 0%nat initial).1).1 in
  handles s !! "count" = Some [0%nat; 1%nat] ∧
  SendEvent.handleMessage behaviour (SendEvent.Tagged "worker-send-event" "count" [VNum 1]) s
  = (set_delivered [(0%nat, [VNum 1])] s, Throws (VError "boom")) ∧
  SentEvent.handleMessage behaviour (SentEvent.Tagged "worker-sent-event" "count" (VNum 1)) s
  = (set_console [ErrorInEventHandler "count" (VError "boom")]
       (set_delivered [(0%nat, [VNum 1]); (1%nat, [VNum 1])] s),
     Returns ()).
Proof. vm_compute. split_and!; reflexivity. Qed.

(** In the revision with [onWSE], [handleMessage] never throws: an event
    message calls every listener registered for its name, in order, and
    each exception is logged on its own. *)
Theorem sent_event_exceptions_contained
    (behaviour : listener → list value → option value)
    (name : string) (payload : value) (m : SentEvent.message) (s : state) :
  (SentEvent.handleMessage behaviour m s).2 = Returns () ∧
  let hs := default [] (handles s !! name) in
  (SentEvent.handleMessage behaviour (SentEvent.Tagged "worker-sent-event" name payload) s).1
  = set_console (console s ++ SentEvent.caught behaviour name payload hs)
      (set_delivered (delivered s ++ ((λ h, (h, [payload])) <$> hs)) s).
Proof.
  split.
  - destruct m as [data|type name' payload'|type data]; simpl; [done| |].
    + case_decide; [|done]. by destruct (handles s !! name').
    + case_decide; [|done]. by destruct (handles s !! WorkerMessage.name data).
  - simpl. destruct (handles s !! name) as [hs|]; simpl.
    + apply callHandle_fold.
    + rewrite !app_nil_r. by destruct s.
Qed.

(** Between resets the counter grows by one with each admitted call: the
    identifier of a new call is positive, is the key of its entry, and is
    greater than the identifier of every pending call. *)
Theorem identifiers_increase (f : callable) (args : list value) (s : state) :
  Index.reachable s →
  terminatePromise s = None →
  let s' := (apply f args s).1 in
  (generateId s).2 = id s + 1 ∧
  id s' = id s + 1 ∧ 0 < id s' ∧
  queue s' !! id s'
    = Some (mkEntry (ResolveOf (apply f args s).2) (RejectOf (apply f args s).2)) ∧
  (∀ k, is_Some (queue s !! k) → 0 < k < id s').
Proof.
  intros Hs%reachable_consistent Ht s'. unfold s'.
  rewrite apply_admitted by done. simpl.
  pose proof (coh_id s (proj1 Hs)).
  split_and!; try done; try lia.
  - by rewrite lookup_insert_eq.
  - intros k [en Hen]. destruct (coh_entry s (proj1 Hs) _ _ Hen) as (? & _). lia.
Qed.

Lemma identifiers_increase_witness :
  let s := Index.run [Index.Request "add" None [VNum 1]] initial in
  id (apply (mkCallable "add" None 0) [VNum 2] s).1 = 2.
Proof.
  intros s.
  refine (proj1 (proj2 (identifiers_increase (mkCallable "add" None 0) [VNum 2] s _ _))).
  - by exists [Index.Request "add" None [VNum 1]].
  - reflexivity.
Defined.

(** ** The end-to-end scenarios of the specification *)

Example add_resolves :
  let s := Index.run
    [Index.Request "add" None [VNum 2; VNum 3];
     Index.Message (WorkerMessage.mk 1 "add" (VNum 5) false)] initial in
  promises s !! 0%nat = Some (Fulfilled (VNum 5)) ∧ queue s = ∅.
Proof. vm_compute. split; reflexivity. Qed.

Example throwError_rejects :
  let s := Index.run
    [Index.Request "add" None [VNum 2; VNum 3];
     Index.Request "throwError" None [];
     Index.Message (WorkerMessage.mk 2 "throwError" (VStr "boom") true)] initial in
  promises s !! 1%nat = Some (Rejected (VStr "boom")) ∧
  promises s !! 0%nat = Some Pending.
Proof. vm_compute. split; reflexivity. Qed.

Example ping_three_times :
  let ping := SentEvent.Tagged "worker-sent-event" "ping" (VStr "ping") in
  let receive := λ s, (SentEvent.handleMessage (λ _ _, None) ping s).1 in
  let s := (SentEvent.onWSE "ping" 0%nat initial).1 in
  delivered (receive (receive (receive s)))
  = [(0%nat, [VStr "ping"]); (0%nat, [VStr "ping"]); (0%nat, [VStr "ping"])].
Proof. reflexivity. Qed.

Example clear_removes_every_listener :
  let s := (SendEvent.onEvent "ping" 1%nat (SendEvent.onEvent "count" 0%nat initial).1).1 in
  let s' := SendEvent.clearEvents None s in
  (SendEvent.handleMessage (λ _ _, None)
     (SendEvent.Tagged "worker-send-event" "count" [VNum 1]) s').1 = s' ∧
  (SendEvent.handleMessage (λ _ _, None)
     (SendEvent.Tagged "worker-send-event" "ping" []) s').1 = s'.
Proof. vm_compute. split; reflexivity. Qed.

Example terminate_waits_for_pending_calls :
  let s := Index.run
    [Index.Request "longTimeTask" None [VNum 1000];
     Index.Request "longTimeTask" None [VNum 1500];
     Index.Shutdown;
     Index.Request "add" None [VNum 1; VNum 2]] initial in
  let s1 := Index.handleMessage (WorkerMessage.mk 1 "longTimeTask" (VStr "a") false) s in
  let s2 := Index.handleMessage (WorkerMessage.mk 2 "longTimeTask" (VStr "b") false) s1 in
  terminatePromise s = Some 2%nat ∧
  promises s !! 3%nat = Some (Rejected terminating) ∧
  outbox s = [MainMessage.mk 1 "longTimeTask" [VNum 1000];
              MainMessage.mk 2 "longTimeTask" [VNum 1500]] ∧
  promises s1 = [Fulfilled (VStr "a"); Pending; Pending; Rejected terminating] ∧
  promises s2
  = [Fulfilled (VStr "a"); Fulfilled (VStr "b"); Fulfilled VUndefined; Rejected terminating] ∧
  worker s2 = None.
Proof. vm_compute. split_and!; reflexivity. Qed.

(** * Further properties *)

(** ** Calls answered by the worker side *)

Lemma requestAll_returned calls s :
  consistent s → terminatePromise s = None →
  (requestAll calls s).2 = seq (length (promises s)) (length calls).
Proof.
  revert s. induction calls as [|[[name transfer] args] calls IH]; intros s Hs Hn; [done|].
  simpl.
  pose proof (consistent_request name transfer args s Hs) as Hs'.
  destruct (request_admitted name transfer args s (proj1 Hs) Hn)
    as (Hp & Hps & _ & _ & _ & Hn').
  destruct (request name transfer args s) as [s' p]. simpl in *.
  specialize (IH s' Hs' Hn'). destruct (requestAll calls s') as [s1 ps]. simpl in *.
  rewrite IH, Hp, Hps, length_app. simpl. do 2 f_equal. lia.
Qed.

Lemma run_responses_consistent rs s :
  consistent s → consistent (Index.run (Index.Message <$> rs) s).
Proof. apply consistent_run. Qed.

Lemma run_responses_queue rs s k :
  k ∉ WorkerMessage.id <$> rs →
  queue (Index.run (Index.Message <$> rs) s) !! k = queue s !! k.
Proof.
  revert s. induction rs as [|r rs IH]; intros s Hk; [done|].
  rewrite fmap_cons in Hk. apply not_elem_of_cons in Hk as [Hne Hk].
  rewrite run_responses_cons, IH by done.
  rewrite handleResponse_queue. by apply lookup_delete_ne.
Qed.

(** A call with no response among those that arrive stays pending, in the
    registry. *)
Lemma run_responses_untouched rs s k en :
  consistent s → queue s !! k = Some en → k ∉ WorkerMessage.id <$> rs →
  promises (Index.run (Index.Message <$> rs) s) !! promiseOf en = Some Pending.
Proof.
  intros Hs Hen Hk.
  pose proof (run_responses_consistent rs s Hs) as [Hs' _].
  apply (coh_entry _ Hs' k en). by rewrite run_responses_queue.
Qed.

Lemma NoDup_fmap_omap {A B C} (f : A → option B) (g : A → C) (h : B → C) (l : list A) :
  (∀ x y, f x = Some y → h y = g x) → NoDup (g <$> l) → NoDup (h <$> omap f l).
Proof.
  intros Hfg. induction l as [|x l IH]; simpl; [done|].
  rewrite NoDup_cons. intros [Hx Hl].
  destruct (f x) as [y|] eqn:Hy; simpl; [|by apply IH].
  apply NoDup_cons. split; [|by apply IH].
  rewrite (Hfg x y Hy). intros (y' & Heq & Hin)%list_elem_of_fmap.
  apply list_elem_of_omap in Hin as (x' & Hx' & Hy').
  apply Hx. rewrite Heq, (Hfg x' y' Hy'). by apply list_elem_of_fmap_2.
Qed.

Lemma onMessage_id toText actions m r :
  Remote.onMessage toText actions m = Some r → WorkerMessage.id r = MainMessage.id m.
Proof.
  unfold Remote.onMessage. destruct (actions _) as [fn|]; [|by intros [= <-]].
  destruct (fn _) as [[result|err]|]; by intros [= <-].
Qed.

Lemma onMessage_answer toText actions m :
  Remote.answer toText actions (MainMessage.name m) (MainMessage.args m)
  = from_option settlement Pending (Remote.onMessage toText actions m).
Proof.
  unfold Remote.answer, Remote.onMessage. destruct (actions _) as [fn|]; [|done].
  by destruct (fn _) as [[result|err]|].
Qed.

(** Calls issued one after the other from a reachable state that is not
    draining, each request answered by [setupWorkerActions], the responses
    arriving in any order: the promise of each call ends as the action of
    its own name decides for its own arguments: fulfilled with the result,
    rejected with the description of what the action threw, rejected with
    the not-found text when there is no such action, and still pending
    when the action never settles. *)
Theorem calls_end_as_their_actions_decide
    (toText : value → string)
    (actions : string → option (list value → option (outcome value)))
    (calls : list (string * option (list value) * list value))
    (rs : list WorkerMessage.t) (s : state) :
  Index.reachable s →
  terminatePromise s = None →
  let s1 := (requestAll calls s).1 in
  let returned := (requestAll calls s).2 in
  let sent := drop (length (outbox s)) (outbox s1) in
  rs ≡ₚ omap (Remote.onMessage toText actions) sent →
  ∀ i name transfer args p,
    calls !! i = Some (name, transfer, args) → returned !! i = Some p →
    promises (Index.run (Index.Message <$> rs) s1) !! p
    = Some (Remote.answer toText actions name args).
Proof.
  intros Hreach Hn s1 returned sent Hrs i name transfer args p Hcall Hp.
  apply reachable_consistent in Hreach.
  destruct (requestAll_registers calls s Hreach Hn)
    as (Hs1 & Hn1 & Hold & sent' & Hsent & Hcalls & Hall).
  assert (sent = sent') as ->.
  { unfold sent, s1. by rewrite Hsent, drop_app_length. }
  pose proof (requestAll_returned calls s Hreach Hn) as Hret. fold returned in Hret, Hall.
  assert (NoDup returned) as Hnd by (rewrite Hret; apply NoDup_seq).
  assert (NoDup (MainMessage.id <$> sent')) as Hids.
  { apply NoDup_alt. intros j1 j2 k.
    rewrite !list_lookup_fmap, !fmap_Some.
    intros (m1 & Hm1 & ->) (m2 & Hm2 & Heq).
    destruct (Forall2_lookup_r _ _ _ _ _ Hall Hm1) as (p1 & Hp1 & en1 & Hen1 & <-).
    destruct (Forall2_lookup_r _ _ _ _ _ Hall Hm2) as (p2 & Hp2 & en2 & Hen2 & <-).
    rewrite Heq in Hen1. rewrite Hen1 in Hen2. injection Hen2 as ->.
    by eapply NoDup_lookup. }
  destruct (Forall2_lookup_l _ _ _ _ _ Hall Hp) as (m & Hm & en & Hen & <-).
  assert (MainMessage.name m = name ∧ MainMessage.args m = args) as [<- <-].
  { assert (((λ m, (MainMessage.name m, MainMessage.args m)) <$> sent') !! i
            = Some (name, args)) as Hi.
    { rewrite Hcalls, list_lookup_fmap, Hcall. done. }
    rewrite list_lookup_fmap, Hm in Hi. simpl in Hi. by injection Hi as -> ->. }
  rewrite onMessage_answer.
  assert (NoDup (WorkerMessage.id <$> rs)) as Hndrs.
  { rewrite Hrs. eapply NoDup_fmap_omap; [|exact Hids]. apply onMessage_id. }
  destruct (Remote.onMessage toText actions m) as [r|] eqn:Hr; simpl.
  - apply responses_settle; [done..| |].
    + rewrite Hrs. apply list_elem_of_omap. exists m. split; [|done].
      by eapply list_elem_of_lookup_2.
    + by rewrite (onMessage_id _ _ _ _ Hr).
  - apply (run_responses_untouched rs (requestAll calls s).1 (MainMessage.id m));
      [done..|].
    rewrite Hrs. intros (r' & Heq & Hin)%list_elem_of_fmap.
    apply list_elem_of_omap in Hin as (m' & Hm' & Hr').
    rewrite (onMessage_id _ _ _ _ Hr') in Heq.
    apply list_elem_of_lookup in Hm' as [j Hj].
    assert (i = j) as ->.
    { eapply NoDup_lookup; [exact Hids|..]; rewrite list_lookup_fmap.
      - by rewrite Hm.
      - rewrite Hj. simpl. by rewrite Heq. }
    congruence.
Qed.

Lemma calls_end_as_their_actions_decide_witness :
  let actions := λ name : string,
    if decide (name = "add") then Some (λ args : list value,
      match args with
      | [VNum a; VNum b] => Some (Returns (VNum (a + b)))
      | _ => Some (Throws (VStr "bad arguments"))
      end)
    else if decide (name = "throwError") then
      Some (λ _ : list value, Some (Throws (VError "This is a test error")))
    else None in
  let calls := [("add", None, [VNum 2; VNum 3]); ("throwError", None, [])] in
  let rs := [WorkerMessage.mk 2 "throwError" (VStr "This is a test error") true;
             WorkerMessage.mk 1 "add" (VNum 5) false] in
  promises (Index.run (Index.Message <$> rs) (requestAll calls initial).1) !! 0%nat
  = Some (Fulfilled (VNum 5)).
Proof.
  intros actions calls rs.
  refine (calls_end_as_their_actions_decide (λ _, "?") actions calls rs initial _ _ _
            0%nat "add" None [VNum 2; VNum 3] 0%nat _ _).
  - by exists [].
  - reflexivity.
  - vm_compute. apply perm_swap.
  - reflexivity.
  - reflexivity.
Defined.

(** ** Responses delivered twice *)

(** A second response with the identifier of one already handled changes
    nothing. *)
Theorem duplicate_response_ignored (data data' : WorkerMessage.t) (s : state) :
  WorkerMessage.id data' = WorkerMessage.id data →
  Index.handleMessage data' (Index.handleMessage data s) = Index.handleMessage data s.
Proof.
  intros Hid. unfold Index.handleMessage at 1. unfold handleResponse at 1.
  change (handleResponse data s) with (Index.handleMessage data s).
  unfold Index.handleMessage at 1. rewrite handleResponse_queue, Hid.
  by rewrite lookup_delete_eq.
Qed.

Lemma duplicate_response_ignored_witness :
  let s := Index.run [Index.Request "add" None [VNum 1]; Index.Request "add" None [VNum 2]] initial in
  let r := WorkerMessage.mk 1 "add" (VNum 3) false in
  let r' := WorkerMessage.mk 1 "add" (VStr "again") true in
  Index.handleMessage r' (Index.handleMessage r s) = Index.handleMessage r s.
Proof.
  intros s r r'. apply (duplicate_response_ignored r r' s). reflexivity.
Defined.

(** ** Draining *)

Lemma drain_responses rs s t :
  consistent s → terminatePromise s = Some t →
  let s' := Index.run (Index.Message <$> rs) s in
  (promises s' !! t = Some (Fulfilled VUndefined)
   ↔ ∀ k, is_Some (queue s !! k) → k ∈ WorkerMessage.id <$> rs) ∧
  (promises s' !! t = Some (Fulfilled VUndefined) → worker s' = None) ∧
  (promises s' !! t ≠ Some (Fulfilled VUndefined) →
     promises s' !! t = Some Pending ∧ terminatePromise s' = Some t).
Proof.
  revert s. induction rs as [|r rs IH]; intros s Hs Ht; cbv zeta.
  - simpl. destruct (coh_signal s (proj1 Hs) t Ht) as (_ & Hp & _).
    assert (queue s ≠ ∅) as Hq by (apply (proj2 Hs); rewrite Ht; eauto).
    rewrite Hp. split_and!; try done. split; [done|]. intros Hall.
    apply map_choose in Hq as (k & en & Hk).
    specialize (Hall k (mk_is_Some _ _ Hk)). by apply elem_of_nil in Hall.
  - rewrite !run_responses_cons. fold (Index.handleMessage r s).
    destruct (draining_step s t (Index.Message r) Hs Ht) as [(Hq & Hn & Hw & Hp)|(Hq & Hd & Hp)];
      simpl in *.
    + assert (promises (Index.run (Index.Message <$> rs) (Index.handleMessage r s)) !! t
              = Some (Fulfilled VUndefined)) as Hrun.
      { by apply run_responses_keeps. }
      split_and!.
      * split; [|done]. intros _ k Hk.
        destruct (decide (k = WorkerMessage.id r)) as [->|Hne]; [left|].
        exfalso. unfold Index.handleMessage in Hq. rewrite handleResponse_queue in Hq.
        apply (f_equal (λ q, q !! k)) in Hq.
        rewrite lookup_delete_ne, lookup_empty in Hq by done.
        rewrite Hq in Hk. by destruct Hk.
      * intros _. clear -Hw. revert Hw. generalize (Index.handleMessage r s).
        induction rs as [|r' rs IH']; intros s0 Hw0; [done|]. simpl. apply IH'.
        unfold Index.handleMessage, handleResponse, onTaskComplete.
        destruct (queue s0 !! _); [|done].
        unfold checkTerminateComplete. simpl.
        destruct (terminatePromise s0), (terminateResolve s0); try done.
        case_decide; [|done]. simpl.
        by destruct (terminateWorker_fields
          (set_id 0 (set_terminatePromise None (set_terminateResolve None
             (set_promises (invoke (if WorkerMessage.error r' then reject e else resolve e)
                (WorkerMessage.payload r') (promises s0))
                (set_queue (delete (WorkerMessage.id r') (queue s0)) s0))))))
          as (_ & _ & _ & _ & _ & _ & _ & _ & ->).
      * by rewrite Hrun.
    + pose proof (consistent_handleResponse r s Hs) as Hs1.
      destruct (IH (Index.handleMessage r s) Hs1 Hd) as (IH1 & IH2 & IH3).
      cbv zeta in IH1, IH2, IH3.
      split_and!; [|done..].
      rewrite IH1. unfold Index.handleMessage. setoid_rewrite handleResponse_queue.
      split; intros Hall k Hk.
      * destruct (decide (k = WorkerMessage.id r)) as [->|Hne]; [left|].
        right. apply Hall. by rewrite lookup_delete_ne.
      * apply lookup_delete_is_Some in Hk as [Hne Hk].
        specialize (Hall k Hk). apply elem_of_cons in Hall as [?|?]; [congruence|done].
Qed.

(** After [terminate()] has started draining, whatever responses arrive:
    the completion signal is fulfilled if and only if every call that was
    pending has had a response; until then it is pending and the channel is
    still draining, and once it is fulfilled the worker variable is
    null. *)
Theorem drain_completes_when_all_answered
    (rs : list WorkerMessage.t) (s : state) (t : nat) :
  Index.reachable s →
  terminatePromise s = Some t →
  let s' := Index.run (Index.Message <$> rs) s in
  (promises s' !! t = Some (Fulfilled VUndefined)
   ↔ ∀ k, is_Some (queue s !! k) → k ∈ WorkerMessage.id <$> rs) ∧
  (promises s' !! t = Some (Fulfilled VUndefined) → worker s' = None) ∧
  (promises s' !! t ≠ Some (Fulfilled VUndefined) →
     promises s' !! t = Some Pending ∧ terminatePromise s' = Some t).
Proof. intros Hs%reachable_consistent Ht. by apply drain_responses. Qed.

Lemma drain_completes_when_all_answered_witness :
  let s := Index.run
    [Index.Request "longTimeTask" None [VNum 500];
     Index.Request "longTimeTask" None [VNum 800];
     Index.Shutdown] initial in
  let rs := [WorkerMessage.mk 2 "longTimeTask" (VStr "b") false] in
  let s' := Index.run (Index.Message <$> rs) s in
  (promises s' !! 2%nat = Some (Fulfilled VUndefined)
   ↔ ∀ k, is_Some (queue s !! k) → k ∈ WorkerMessage.id <$> rs) ∧
  (promises s' !! 2%nat = Some (Fulfilled VUndefined) → worker s' = None) ∧
  (promises s' !! 2%nat ≠ Some (Fulfilled VUndefined) →
     promises s' !! 2%nat = Some Pending ∧ terminatePromise s' = Some 2%nat).
Proof.
  intros s rs.
  refine (drain_completes_when_all_answered rs s 2%nat _ _).
  - by exists [Index.Request "longTimeTask" None [VNum 500];
               Index.Request "longTimeTask" None [VNum 800]; Index.Shutdown].
  - reflexivity.
Defined.

(** ** Transport errors and the worker *)

(** A transport error, in the revisions that handle it synchronously, is
    logged and empties the registry, so that every response arriving
    afterwards is dropped.  Outside a shutdown it leaves the worker, its
    listeners and the counter as they were: the next call is admitted and
    posted to the same worker with the next identifier.  During a shutdown
    it completes it: the worker variable is null, the counter zero and the
    completion signal fulfilled. *)
Theorem transport_error_outcome (e : value) (s : state) :
  Index.reachable s →
  let s' := Index.handleError e s in
  console s' = console s ++ [WorkerEncounteredError e] ∧
  queue s' = ∅ ∧
  (∀ data, Index.handleMessage data s' = s') ∧
  (terminatePromise s = None →
     worker s' = worker s ∧ workers s' = workers s ∧ id s' = id s ∧
     terminatePromise s' = None ∧
     ∀ name transfer args,
       outbox (request name transfer args s').1
       = outbox s ++ [MainMessage.mk (id s + 1) name args]) ∧
  (∀ t, terminatePromise s = Some t →
     worker s' = None ∧ id s' = 0 ∧ terminatePromise s' = None ∧
     promises s' !! t = Some (Fulfilled VUndefined)).
Proof.
  intros Hs%reachable_consistent s'.
  pose proof (consistent_handleError e s Hs) as Hs'. fold s' in Hs'.
  assert (queue s' = ∅) as Hq.
  { unfold s', Index.handleError, onTaskComplete. by rewrite checkTerminateComplete_queue. }
  split_and!.
  - unfold s', Index.handleError, onTaskComplete, checkTerminateComplete. simpl.
    destruct (terminatePromise s), (terminateResolve s); try done.
    rewrite decide_True by done. simpl.
    match goal with |- console (terminateWorker ?x) = _ =>
      by destruct (terminateWorker_fields x) as (_ & _ & _ & _ & _ & _ & -> & _) end.
  - done.
  - intros data. unfold Index.handleMessage, handleResponse. by rewrite Hq, lookup_empty.
  - intros Hn.
    assert (s' = set_queue ∅
              (set_promises (rejectEach e (values (queue s)) (promises s))
                 (set_console (console s ++ [WorkerEncounteredError e]) s))) as Hs'eq.
    { unfold s', Index.handleError, onTaskComplete.
      by rewrite checkTerminateComplete_idle. }
    split_and!; try by rewrite Hs'eq.
    intros name transfer args.
    destruct (request_admitted name transfer args s' (proj1 Hs'))
      as (_ & _ & _ & _ & Hout & _); [by rewrite Hs'eq|].
    cbv zeta in Hout. rewrite Hout. by rewrite Hs'eq.
  - intros t Ht.
    destruct (coh_signal s (proj1 Hs) t Ht) as (_ & Hp & Hother).
    assert (terminateResolve s = Some (ResolveOf t)) as Hk.
    { rewrite (coh_resolver s (proj1 Hs)), Ht. done. }
    set (s3 := set_queue ∅
              (set_promises (rejectEach e (values (queue s)) (promises s))
                 (set_console (console s ++ [WorkerEncounteredError e]) s))).
    assert (promises s3 !! t = Some Pending) as Hp3.
    { unfold s3. simpl. rewrite rejectEach_other; [done|].
      intros en (k & Hen)%elem_of_values.
      destruct (coh_entry s (proj1 Hs) _ _ Hen) as (_ & Hpair & _).
      rewrite (paired_reject _ Hpair). simpl. by eapply Hother. }
    assert (s' = set_promises (invoke (ResolveOf t) VUndefined (promises (restored s3)))
                   (restored s3)) as ->.
    { unfold s', Index.handleError, onTaskComplete.
      change (checkTerminateComplete s3 = set_promises
        (invoke (ResolveOf t) VUndefined (promises (restored s3))) (restored s3)).
      by rewrite (checkTerminateComplete_fires s3 t). }
    destruct (restored_fields s3) as (E1 & E2 & E3 & E4 & E5 & E6).
    simpl. rewrite E1, E3, E4, E6. split_and!; try done. by apply settle_pending.
Qed.

Lemma transport_error_outcome_witness :
  let s := Index.run [Index.Request "add" None [VNum 1]] initial in
  let s' := Index.handleError (VEvent "messageerror") s in
  console s' = console s ++ [WorkerEncounteredError (VEvent "messageerror")] ∧
  queue s' = ∅.
Proof.
  intros s s'.
  pose proof (transport_error_outcome (VEvent "messageerror") s) as H.
  refine (let H' := H _ in conj (proj1 H') (proj1 (proj2 H'))).
  by exists [Index.Request "add" None [VNum 1]].
Defined.

(** ** The invariant, for the user of the proxy *)

Lemma unfulfilled_newPromise ps p : unfulfilled ps p → unfulfilled (ps ++ [Pending]) p.
Proof.
  intros [Hp|[e Hp]]; [left|right; exists e]; by apply lookup_newPromise_old.
Qed.

Lemma unfulfilled_ne_length ps p : unfulfilled ps p → p ≠ length ps.
Proof. intros [Hp|[e Hp]]; by eapply lookup_Some_ne_length. Qed.

Lemma unfulfilled_other k v ps p :
  target k ≠ p → unfulfilled ps p → unfulfilled (invoke k v ps) p.
Proof. intros Hne. unfold unfulfilled. by rewrite invoke_other. Qed.

Lemma accounted_coherent s : coherent s → accounted s.
Proof.
  intros [H1 H2 H3 H4 H5 H6]. split; try done.
  intros k en Hen. destruct (H3 k en Hen) as (? & ? & ?). split; [done|split; [done|by left]].
Qed.

Lemma accounted_getWorker s : accounted s → accounted (getWorker s).1.
Proof.
  intros [H1 H2 H3 H4 H5 H6].
  destruct (getWorker_fields s) as (E1 & E2 & E3 & E4 & _ & E6 & _ & _ & E9).
  split; rewrite ?E1, ?E2, ?E3, ?E4, ?E6; try done.
  - intros t Ht. destruct (H2 t Ht) as (_ & ? & ?). rewrite E9. eauto.
  - intros w. rewrite E9. intros [= <-]. by apply getWorker_in_range.
Qed.

Lemma steady_call name transfer s : steady s → steady (call name transfer s).1.
Proof.
  intros [H Hd]. unfold call.
  pose proof (accounted_getWorker s H) as H'.
  destruct (getWorker_fields s) as (_ & E2 & E3 & _).
  destruct (getWorker s) as [s1 w]. simpl in *. split; [done|]. by rewrite E2, E3.
Qed.

(** The two applications differ in what happens after the entry is
    stored; the invariant is kept by both. *)
Lemma accounted_store (rest : nat → list promise → list promise) s :
  (∀ p ps q, q ≠ p → rest p ps !! q = ps !! q) →
  (∀ p ps, ps !! p = Some Pending → unfulfilled (rest p ps) p) →
  accounted s → terminatePromise s = None →
  accounted
    (set_promises (rest (length (promises s)) (promises s ++ [Pending]))
       (set_queue
          (<[id s + 1 := mkEntry (ResolveOf (length (promises s)))
                           (RejectOf (length (promises s)))]> (queue s))
          (set_id (id s + 1) s))).
Proof.
  intros Hother Hown [H1 H2 H3 H4 H5 H6] Ht. rewrite Ht in H1.
  split; simpl; rewrite ?Ht; try done.
  - intros k en. rewrite lookup_insert. case_decide as Hk.
    + intros [= <-]. subst k. split; [lia|split; [done|]]. simpl.
      apply Hown, lookup_newPromise_new.
    + intros Hen. destruct (H3 k en Hen) as (? & ? & Hp). split; [lia|split; [done|]].
      unfold unfulfilled. rewrite Hother by by apply unfulfilled_ne_length.
      by apply unfulfilled_newPromise.
  - intros k1 k2 en1 en2. rewrite !lookup_insert.
    repeat case_decide; subst; try done.
    + intros [= <-] Hen2 Heq. destruct (H3 _ _ Hen2) as (_ & _ & Hp).
      apply unfulfilled_ne_length in Hp. unfold promiseOf in *. simpl in *. congruence.
    + intros Hen1 [= <-] Heq. destruct (H3 _ _ Hen1) as (_ & _ & Hp).
      apply unfulfilled_ne_length in Hp. unfold promiseOf in *. simpl in *. congruence.
    + apply H4.
  - lia.
Qed.

Lemma accounted_refused s t :
  accounted s → terminatePromise s = Some t →
  accounted
    (set_promises
       (invoke (RejectOf (length (promises s))) terminating (promises s ++ [Pending]))
       (set_promises (promises s ++ [Pending]) s)).
Proof.
  intros [H1 H2 H3 H4 H5 H6] Ht. rewrite Ht in H1.
  split; simpl; rewrite ?Ht; try done.
  - intros t' [= <-]. destruct (H2 t Ht) as (Hw & Hp & Hq).
    split_and!; [done| |done].
    rewrite settle_other by (symmetry; by eapply lookup_Some_ne_length).
    by apply lookup_newPromise_old.
  - intros k en Hk. destruct (H3 k en Hk) as (? & ? & Hp). split; [done|split; [done|]].
    apply (unfulfilled_other (RejectOf _)); [|by apply unfulfilled_newPromise].
    simpl. symmetry. by apply unfulfilled_ne_length.
Qed.

Lemma steady_apply f args s : steady s → steady (apply f args s).1.
Proof.
  intros [H Hd]. unfold apply, newPromise. simpl.
  destruct (terminatePromise s) as [t|] eqn:Ht; simpl.
  - split; [by eapply accounted_refused|]. simpl. by rewrite Ht.
  - split; [|simpl; rewrite Ht; by intros []].
    pose proof (accounted_store (λ _ ps, ps) s) as Hstore. simpl in Hstore.
    destruct Hstore as [G1 G2 G3 G4 G5 G6]; try done.
    { intros p ps Hp. by left. }
    split; simpl; try done.
    intros w Hw. rewrite length_alter. by apply (acc_worker s H).
Qed.

Lemma steady_applyThrown e s : steady s → steady (applyThrown e s).1.
Proof.
  intros [H Hd]. unfold applyThrown, newPromise. simpl.
  destruct (terminatePromise s) as [t|] eqn:Ht; simpl.
  - split; [by eapply accounted_refused|]. simpl. by rewrite Ht.
  - split; [|simpl; rewrite Ht; by intros []].
    apply (accounted_store (λ p ps, settle p (Rejected e) ps) s); try done.
    + intros p ps q Hne. by apply settle_other.
    + intros p ps Hp. right. exists e. by apply settle_pending.
Qed.

Lemma accounted_terminateWorker s :
  accounted s → terminatePromise s = None → accounted (terminateWorker s).
Proof.
  intros [H1 H2 H3 H4 H5 H6] Hn.
  destruct (terminateWorker_fields s) as (E1 & E2 & E3 & E4 & _ & E6 & _ & _ & E9).
  split; rewrite ?E1, ?E2, ?E3, ?E4, ?E6, ?E9; try done.
  rewrite Hn. done.
Qed.

Lemma steady_terminate s : steady s → steady (terminate s).1.
Proof.
  intros [H Hd]. unfold terminate.
  destruct (worker s) as [w|] eqn:Hw; [|done].
  destruct (terminatePromise s) as [t|] eqn:Ht; [simpl; split; [done|by rewrite Ht]|].
  case_decide as Hsz; simpl.
  - split; [by apply accounted_terminateWorker|].
    destruct (terminateWorker_fields s) as (_ & E2 & _). rewrite E2, Ht. by intros [].
  - split; [|intros _ Hq; apply Hsz; by apply size_queue_zero].
    destruct H as [H1 H2 H3 H4 H5 H6]. split; simpl; try done.
    + intros t [= <-]. rewrite Hw. split; [eauto|]. split.
      * apply lookup_newPromise_new.
      * intros k en Hen. destruct (H3 k en Hen) as (_ & _ & Hp).
        by apply unfulfilled_ne_length.
    + intros k en Hen. destruct (H3 k en Hen) as (? & ? & Hp).
      split; [done|split; [done|]]. by apply unfulfilled_newPromise.
Qed.

Lemma steady_checkTerminateComplete s : accounted s → steady (checkTerminateComplete s).
Proof.
  intros H. unfold checkTerminateComplete.
  destruct (terminatePromise s) as [t|] eqn:Ht.
  2:{ split; [done|]. rewrite Ht. by intros []. }
  destruct (terminateResolve s) as [k|] eqn:Hk.
  2:{ destruct H as [H1 _ _ _ _ _]. rewrite Ht, Hk in H1. done. }
  case_decide as Hsz.
  - apply size_queue_zero in Hsz.
    set (s3 := set_id 0 (set_terminatePromise None (set_terminateResolve None s))).
    destruct (terminateWorker_fields s3) as (E1 & E2 & E3 & E4 & _ & E6 & _ & _ & E9).
    split; [split|]; simpl; rewrite ?E1, ?E2, ?E3, ?E4, ?E6, ?E9; simpl; rewrite ?Hsz; try done.
  - split; [done|]. intros _ Hq. apply Hsz. by apply size_queue_zero.
Qed.

Lemma steady_handleResponse data s : steady s → steady (handleResponse data s).
Proof.
  intros [H Hd]. unfold handleResponse.
  destruct (queue s !! WorkerMessage.id data) as [en|] eqn:Hen; [|done].
  apply steady_checkTerminateComplete.
  destruct H as [H1 H2 H3 H4 H5 H6].
  destruct (H3 _ _ Hen) as (_ & Hpair & _).
  assert (target (if WorkerMessage.error data then reject en else resolve en) = promiseOf en)
    as Htarget.
  { rewrite Hpair. by destruct (WorkerMessage.error data). }
  split; simpl; try done.
  - intros t Ht. destruct (H2 t Ht) as (Hw & Hp & Hq). split; [done|]. split.
    + rewrite invoke_other; [done|]. rewrite Htarget. by eapply Hq.
    + intros k en'. rewrite lookup_delete. case_decide; [done|]. apply Hq.
  - intros k en'. rewrite lookup_delete. case_decide as Hk; [done|]. intros Hen'.
    destruct (H3 _ _ Hen') as (? & ? & Hp). split; [done|split; [done|]].
    apply unfulfilled_other; [|done]. rewrite Htarget. intros Heq.
    apply Hk. symmetry. by eapply H4.
  - intros k1 k2 en1 en2. rewrite !lookup_delete. repeat case_decide; try done. apply H4.
Qed.

Lemma steady_handleError e s : steady s → steady (Index.handleError e s).
Proof.
  intros [H Hd]. unfold Index.handleError, onTaskComplete.
  apply steady_checkTerminateComplete. simpl.
  destruct H as [H1 H2 H3 H4 H5 H6]. split; simpl; try done.
  intros t Ht. destruct (H2 t Ht) as (Hw & Hp & Hq). split; [done|]. split; [|done].
  rewrite rejectEach_other; [done|].
  intros en (k & Hk)%elem_of_values. destruct (H3 _ _ Hk) as (_ & Hpair & _).
  rewrite (paired_reject _ Hpair). simpl. by eapply Hq.
Qed.

Lemma steady_advance s j : steady s → steady (Index.advance s j).
Proof.
  intros H. destruct j as [[]|e]; simpl.
  - by apply steady_call.
  - by apply steady_apply.
  - unfold request. pose proof (steady_call name transfer s H) as H'.
    destruct (call name transfer s) as [s1 f]. by apply steady_apply.
  - by apply steady_terminate.
  - done.
  - by apply steady_handleResponse.
  - by apply steady_handleError.
  - by apply steady_applyThrown.
Qed.

Lemma attainable_steady s : Index.attainable s → steady s.
Proof.
  intros [js ->].
  assert (∀ s, steady s → steady (Index.proceed js s)) as Hall.
  { induction js as [|j js IH]; intros s H; [done|]. simpl. by apply IH, steady_advance. }
  apply Hall. split; [apply accounted_coherent, coherent_initial|]. simpl. by intros [].
Qed.

Lemma reachable_attainable s : Index.reachable s → Index.attainable s.
Proof.
  intros [ops ->]. exists (Index.Did <$> ops). generalize initial.
  induction ops as [|o ops IH]; intros s; [done|]. simpl. apply IH.
Qed.

(** In every state of the closure, whether or not some [postMessage] has
    thrown: the identifiers in the registry are positive and at most the
    counter; each entry holds the two continuations of one promise, which
    has not been fulfilled; no two entries share a promise; and while
    draining there is a worker, an entry in the registry, and a pending
    completion signal that is the promise of no call.  As long as every
    [postMessage] has returned, the promise of each entry is pending.  A
    call whose [postMessage] throws posts nothing and leaves its entry in
    the registry, with its promise rejected with the exception. *)
Theorem registry_invariant (s : state) :
  Index.attainable s →
  (∀ k en, queue s !! k = Some en →
     0 < k ≤ id s ∧
     en = mkEntry (ResolveOf (promiseOf en)) (RejectOf (promiseOf en)) ∧
     (promises s !! promiseOf en = Some Pending ∨
      ∃ e, promises s !! promiseOf en = Some (Rejected e))) ∧
  (∀ k1 k2 en1 en2, queue s !! k1 = Some en1 → queue s !! k2 = Some en2 →
     promiseOf en1 = promiseOf en2 → k1 = k2) ∧
  (∀ t, terminatePromise s = Some t →
     terminateResolve s = Some (ResolveOf t) ∧
     is_Some (worker s) ∧ queue s ≠ ∅ ∧ promises s !! t = Some Pending ∧
     ∀ k en, queue s !! k = Some en → promiseOf en ≠ t) ∧
  (terminatePromise s = None → terminateResolve s = None) ∧
  (Index.reachable s →
     ∀ k en, queue s !! k = Some en → promises s !! promiseOf en = Some Pending) ∧
  (terminatePromise s = None →
     ∀ e, let r := applyThrown e s in
       promises r.1 !! r.2 = Some (Rejected e) ∧
       queue r.1 !! (id s + 1) = Some (mkEntry (ResolveOf r.2) (RejectOf r.2)) ∧
       workers r.1 = workers s ∧
       Index.attainable r.1).
Proof.
  intros Hatt. pose proof (attainable_steady s Hatt) as [Hs Hd]. split_and!.
  - apply (acc_entry s Hs).
  - apply (acc_distinct s Hs).
  - intros t Ht. destruct (acc_signal s Hs t Ht) as (Hw & Hp & Hother).
    split_and!; try done.
    + by rewrite (acc_resolver s Hs), Ht.
    + apply Hd. rewrite Ht. eauto.
  - intros Ht. by rewrite (acc_resolver s Hs), Ht.
  - intros [Hc _]%reachable_consistent k en Hen.
    by destruct (coh_entry s Hc k en Hen) as (_ & _ & ?).
  - intros Ht e r. unfold r, applyThrown, newPromise. simpl. rewrite Ht. simpl.
    split_and!.
    + apply settle_pending, lookup_newPromise_new.
    + by rewrite lookup_insert_eq.
    + done.
    + destruct Hatt as [js ->]. exists (js ++ [Index.ApplyThrown e]).
      unfold Index.proceed. rewrite foldl_app. simpl.
      unfold applyThrown, newPromise. simpl.
      unfold Index.proceed in Ht. by rewrite Ht.
Qed.

Lemma registry_invariant_witness :
  let s := Index.proceed
    [Index.Did (Index.Request "add" None [VNum 1]);
     Index.ApplyThrown (VError "DataCloneError");
     Index.Did (Index.Message (WorkerMessage.mk 1 "add" (VNum 3) false));
     Index.Did Index.Shutdown] initial in
  (∀ k en, queue s !! k = Some en →
     0 < k ≤ id s ∧
     en = mkEntry (ResolveOf (promiseOf en)) (RejectOf (promiseOf en)) ∧
     (promises s !! promiseOf en = Some Pending ∨
      ∃ e, promises s !! promiseOf en = Some (Rejected e))) ∧
  queue s = {[ 2 := mkEntry (ResolveOf 1%nat) (RejectOf 1%nat) ]} ∧
  promises s = [Fulfilled (VNum 3); Rejected (VError "DataCloneError"); Pending] ∧
  terminatePromise s = Some 2%nat.
Proof.
  intros s. split; [|split_and!; reflexivity].
  refine (proj1 (registry_invariant s _)).
  by eexists.
Defined.

(** ** One live worker *)

Lemma tidy_ext s s' : worker s' = worker s → workers s' = workers s → tidy s → tidy s'.
Proof. intros Hw Hws H i wo. rewrite Hw, Hws. apply H. Qed.

Lemma tidy_getWorker s : tidy s → tidy (getWorker s).1.
Proof.
  intros H. destruct (worker s) as [w|] eqn:Hw.
  - by rewrite (getWorker_idle s w Hw).
  - rewrite (getWorker_fresh s Hw). intros i wo. simpl.
    intros [Hi|[Hi Hwo]]%lookup_app_Some.
    + split.
      * intros [= <-]. apply lookup_lt_Some in Hi. lia.
      * intros _. apply (H i wo Hi). by rewrite Hw.
    + apply list_lookup_singleton_Some in Hwo as [Hi' <-].
      split; [done|]. intros Hne. exfalso. apply Hne. f_equal. lia.
Qed.

Lemma terminateWorker_others s w i :
  worker s = Some w → i ≠ w → workers (terminateWorker s) !! i = workers s !! i.
Proof.
  intros Hw Hne. unfold terminateWorker. rewrite Hw. simpl.
  by rewrite !list_lookup_alter_ne.
Qed.

Lemma tidy_terminateWorker s :
  tidy s → tidy (terminateWorker s).
Proof.
  intros H. destruct (worker s) as [w|] eqn:Hw.
  2:{ unfold terminateWorker. by rewrite Hw. }
  destruct (terminateWorker_fields s) as (_ & _ & _ & _ & _ & _ & _ & _ & E9).
  intros i wo Hi. rewrite E9. split; [done|]. intros _.
  destruct (decide (i = w)) as [->|Hne].
  - destruct (terminateWorker_tornDown s w Hw) as (wo' & Hwo' & Htorn).
    { apply lookup_lt_Some in Hi. unfold terminateWorker in Hi. rewrite Hw in Hi.
      simpl in Hi. by rewrite !length_alter in Hi. }
    congruence.
  - rewrite (terminateWorker_others s w i Hw Hne) in Hi.
    apply (H i wo Hi). rewrite Hw. congruence.
Qed.

Lemma tidy_checkTerminateComplete s : tidy s → tidy (checkTerminateComplete s).
Proof.
  intros H. unfold checkTerminateComplete.
  destruct (terminatePromise s), (terminateResolve s); try done.
  case_decide; [|done].
  eapply (tidy_ext (terminateWorker
    (set_id 0 (set_terminatePromise None (set_terminateResolve None s))))); [done..|].
  apply tidy_terminateWorker. by eapply tidy_ext.
Qed.

Lemma tidy_postMessage data transfer j s :
  tidy s → tidy (set_workers (alter (postMessage data transfer) j (workers s)) s).
Proof.
  intros H i wo. simpl. rewrite list_lookup_alter.
  case_decide as Hij; [|apply H]. subst j.
  destruct (workers s !! i) as [wo'|] eqn:Hwo'; [|done]. simpl.
  intros [= <-]. apply (H i wo' Hwo').
Qed.

Lemma tidy_apply f args s : tidy s → tidy (apply f args s).1.
Proof.
  intros H. unfold apply, newPromise. simpl.
  destruct (terminatePromise s); simpl.
  - by eapply tidy_ext.
  - eapply (tidy_ext _ (set_workers (alter _ (c_worker f) (workers s)) s)); [done..|].
    by apply tidy_postMessage.
Qed.

Lemma tidy_call name transfer s : tidy s → tidy (call name transfer s).1.
Proof.
  intros H. unfold call. pose proof (tidy_getWorker s H). by destruct (getWorker s).
Qed.

Lemma tidy_step s o : tidy s → tidy (Index.step s o).
Proof.
  intros H. destruct o; simpl.
  - by apply tidy_call.
  - by apply tidy_apply.
  - unfold request. pose proof (tidy_call name transfer s H).
    destruct (call name transfer s). by apply tidy_apply.
  - unfold terminate. destruct (worker s) eqn:Hw; [|done].
    destruct (terminatePromise s); [done|]. case_decide; simpl.
    + by apply tidy_terminateWorker.
    + by eapply tidy_ext.
  - done.
  - unfold Index.handleMessage, handleResponse, onTaskComplete.
    destruct (queue s !! _); [|done]. apply tidy_checkTerminateComplete. by eapply tidy_ext.
  - unfold Index.handleError, onTaskComplete.
    apply tidy_checkTerminateComplete. by eapply tidy_ext.
Qed.

Lemma tidy_run ops s : tidy s → tidy (Index.run ops s).
Proof.
  revert s. induction ops as [|o ops IH]; intros s H; [done|].
  simpl. apply IH. by apply tidy_step.
Qed.

(** In every reachable state the worker variable, when set, refers to a
    [Worker] that is not terminated and has exactly the three listeners,
    and every other [Worker] that [setupWorker] ever returned has been
    terminated with its listeners removed. *)
Theorem one_live_worker (s : state) :
  Index.reachable s →
  (∀ w, worker s = Some w →
     ∃ wo, workers s !! w = Some wo ∧ terminated wo = false ∧ attached wo = listening) ∧
  (∀ i wo, workers s !! i = Some wo → worker s ≠ Some i → tornDown wo).
Proof.
  intros Hreach. pose proof (reachable_consistent s Hreach) as [Hs _].
  destruct Hreach as [ops ->].
  assert (tidy (Index.run ops initial)) as Htidy.
  { apply tidy_run. intros i wo Hi. simpl in Hi. by rewrite lookup_nil in Hi. }
  split.
  - intros w Hw.
    destruct (lookup_lt_is_Some_2 _ _ (coh_worker _ Hs w Hw)) as [wo Hwo].
    exists wo. split; [done|]. by apply (Htidy w wo Hwo).
  - intros i wo Hi Hne. by apply (Htidy i wo Hi).
Qed.

Lemma one_live_worker_witness :
  let s := Index.run
    [Index.Request "add" None [VNum 1];
     Index.Message (WorkerMessage.mk 1 "add" (VNum 2) false);
     Index.Shutdown;
     Index.Request "add" None [VNum 3]] initial in
  (∀ w, worker s = Some w →
     ∃ wo, workers s !! w = Some wo ∧ terminated wo = false ∧ attached wo = listening) ∧
  (∀ i wo, workers s !! i = Some wo → worker s ≠ Some i → tornDown wo).
Proof.
  intros s. refine (one_live_worker s _).
  by exists [Index.Request "add" None [VNum 1];
             Index.Message (WorkerMessage.mk 1 "add" (VNum 2) false);
             Index.Shutdown;
             Index.Request "add" None [VNum 3]].
Defined.

(** ** Functions that outlive their worker *)

(** [call] binds the function it returns to the worker of that moment.
    When the channel is then shut down with nothing pending, applying that
    function is still admitted: the call is registered and its request is
    posted to the old [Worker], which is terminated and has no listener;
    the worker variable stays null, and [terminate()] completes at once
    although the call is pending. *)
Theorem stale_function_posts_to_terminated_worker
    (s : state) (w : nat) (name : string) (transfer : option (list value))
    (args : list value) :
  Index.reachable s →
  worker s = Some w → terminatePromise s = None → queue s = ∅ →
  let f := (call name transfer s).2 in
  let s1 := (terminate s).1 in
  let s2 := (apply f args s1).1 in
  let p := (apply f args s1).2 in
  (call name transfer s).1 = s ∧
  worker s1 = None ∧
  worker s2 = None ∧
  queue s2 = {[id s + 1 := mkEntry (ResolveOf p) (RejectOf p)]} ∧
  promises s2 !! p = Some Pending ∧
  (∃ wo, workers s2 !! w = Some wo ∧ tornDown wo ∧
         last (posted wo) = Some (MainMessage.mk (id s + 1) name args, transfer)) ∧
  terminate s2 = (s2, Completed).
Proof.
  intros Hs%reachable_consistent Hw Hn Hq f s1 s2 p.
  assert (call name transfer s = (s, mkCallable name transfer w)) as Hcall.
  { unfold call. by rewrite (getWorker_idle s w Hw). }
  assert (s1 = terminateWorker s) as Hs1.
  { unfold s1, terminate. rewrite Hw, Hn. by rewrite decide_True by by apply size_queue_zero. }
  destruct (terminateWorker_fields s) as (E1 & E2 & E3 & E4 & E5 & E6 & E7 & E8 & E9).
  destruct (terminateWorker_tornDown s w Hw (coh_worker s (proj1 Hs) w Hw))
    as (wo & Hwo & Htorn).
  assert (terminatePromise s1 = None) as Hn1 by (by rewrite Hs1, E2).
  pose proof (apply_admitted f args s1 Hn1) as Happly.
  assert (s2 = (apply f args s1).1) as Hs2 by done.
  assert (p = (apply f args s1).2) as Hp by done.
  rewrite Happly in Hs2, Hp. simpl in Hs2, Hp.
  assert (worker s2 = None) as Hw2 by (by rewrite Hs2, Hs1; simpl; rewrite E9).
  split_and!.
  - by rewrite Hcall.
  - by rewrite Hs1.
  - done.
  - rewrite Hs2, Hp, Hs1. simpl. rewrite E3, E4, E6, Hq. done.
  - rewrite Hs2, Hp. simpl. apply lookup_newPromise_new.
  - exists (postMessage (MainMessage.mk (id s + 1) name args) transfer wo).
    split_and!.
    + rewrite Hs2. simpl. unfold f. rewrite Hcall. simpl.
      rewrite list_lookup_alter_eq, Hs1, Hwo. simpl. by rewrite E4.
    + done.
    + simpl. by rewrite last_snoc.
  - unfold terminate. by rewrite Hw2.
Qed.

Lemma stale_function_posts_to_terminated_worker_witness :
  let s := Index.run
    [Index.Request "add" None [VNum 1];
     Index.Message (WorkerMessage.mk 1 "add" (VNum 2) false)] initial in
  let f := (call "add" None s).2 in
  let s2 := (apply f [VNum 5] (terminate s).1).1 in
  worker s2 = None ∧ terminate s2 = (s2, Completed).
Proof.
  intros s f s2.
  pose proof (stale_function_posts_to_terminated_worker s 0%nat "add" None [VNum 5]) as H.
  refine (let H' := H _ _ _ _ in
          conj (proj1 (proj2 (proj2 H'))) (proj2 (proj2 (proj2 (proj2 (proj2 (proj2 H'))))))).
  - by exists [Index.Request "add" None [VNum 1];
               Index.Message (WorkerMessage.mk 1 "add" (VNum 2) false)].
  - reflexivity.
  - reflexivity.
  - reflexivity.
Defined.

(** After [terminate()] on a channel with nothing pending, the next call
    creates a new [Worker], different from the old one, which stays torn
    down, and posts its request there; the request carries the next value
    of the counter, which this teardown leaves as it was. *)
Theorem call_after_idle_terminate_creates_worker
    (s : state) (w : nat) (name : string) (transfer : option (list value))
    (args : list value) :
  Index.reachable s →
  worker s = Some w → terminatePromise s = None → queue s = ∅ →
  let s1 := (terminate s).1 in
  let s2 := (request name transfer args s1).1 in
  let p := (request name transfer args s1).2 in
  worker s2 = Some (length (workers s)) ∧
  length (workers s) ≠ w ∧
  workers s2 !! length (workers s)
    = Some (mkWorker listening false [(MainMessage.mk (id s + 1) name args, transfer)]) ∧
  (∃ wo, workers s2 !! w = Some wo ∧ tornDown wo) ∧
  queue s2 = {[id s + 1 := mkEntry (ResolveOf p) (RejectOf p)]} ∧
  promises s2 !! p = Some Pending.
Proof.
  intros Hs%reachable_consistent Hw Hn Hq s1 s2 p.
  pose proof (coh_worker s (proj1 Hs) w Hw) as Hlt.
  assert (s1 = terminateWorker s) as Hs1.
  { unfold s1, terminate. rewrite Hw, Hn. by rewrite decide_True by by apply size_queue_zero. }
  destruct (terminateWorker_fields s) as (E1 & E2 & E3 & E4 & E5 & E6 & E7 & E8 & E9).
  destruct (terminateWorker_tornDown s w Hw Hlt) as (wo & Hwo & Htorn).
  assert (length (workers s1) = length (workers s)) as Hlen.
  { rewrite Hs1. unfold terminateWorker. rewrite Hw. simpl. by rewrite !length_alter. }
  assert (worker s1 = None) as Hw1 by (by rewrite Hs1).
  assert (request name transfer args s1 = (s2, p)) as Hreq by (by destruct (request _ _ _ _)).
  unfold request, call in Hreq. rewrite (getWorker_fresh s1 Hw1) in Hreq.
  rewrite apply_admitted in Hreq by (simpl; by rewrite Hs1, E2).
  simpl in Hreq. rewrite alter_last in Hreq. injection Hreq as <- <-.
  simpl. rewrite Hlen, Hs1, E3, E4, E6, Hq. split_and!; try done.
  - lia.
  - rewrite <- Hlen, Hs1. by apply list_lookup_middle.
  - exists wo. split; [|done]. rewrite lookup_app_l; [done|]. by rewrite <- Hs1, Hlen.
  - simpl. apply lookup_newPromise_new.
Qed.

Lemma call_after_idle_terminate_creates_worker_witness :
  let s := Index.run
    [Index.Request "add" None [VNum 1];
     Index.Message (WorkerMessage.mk 1 "add" (VNum 2) false)] initial in
  let s2 := (request "add" None [VNum 5] (terminate s).1).1 in
  worker s2 = Some 1%nat ∧ 1%nat ≠ 0%nat.
Proof.
  intros s s2.
  pose proof (call_after_idle_terminate_creates_worker s 0%nat "add" None [VNum 5]) as H.
  refine (let H' := H _ _ _ _ in conj (proj1 H') (proj1 (proj2 H'))).
  - by exists [Index.Request "add" None [VNum 1];
               Index.Message (WorkerMessage.mk 1 "add" (VNum 2) false)].
  - reflexivity.
  - reflexivity.
  - reflexivity.
Defined.

(** ** The window of the [async] [handleError] *)

Lemma values_empty : values ∅ = [].
Proof. unfold values. by rewrite map_to_list_empty. Qed.

(** The [async] [handleError] outside a shutdown.  When its remainder runs
    right after the handler, the result is that of the synchronous
    [handleError].  When a call is made in between, the call is admitted,
    the remainder removes its entry without settling its promise, and from
    then on no response and no transport error settles it. *)
Theorem async_failure_window
    (e : value) (s : state) (name : string) (transfer : option (list value))
    (args : list value) :
  terminatePromise s = None →
  let s1 := (SentEvent.handleError e s).1 in
  let remainder := (SentEvent.handleError e s).2 in
  let s2 := (request name transfer args s1).1 in
  let p := (request name transfer args s1).2 in
  let s3 := remainder s2 in
  remainder s1 = Index.handleError e s ∧
  promises s !! p = None ∧
  is_Some (queue s2 !! (id s + 1)) ∧
  queue s3 = ∅ ∧
  promises s3 !! p = Some Pending ∧
  (∀ data, handleResponse data s3 = s3) ∧
  (∀ e', promises ((SentEvent.handleError e' s3).2 (SentEvent.handleError e' s3).1)
         = promises s3).
Proof.
  intros Hn s1 remainder s2 p s3.
  assert (request name transfer args s1 = (s2, p)) as Hreq by (by destruct (request _ _ _ _)).
  unfold request, call in Hreq.
  destruct (getWorker_fields s1) as (E1 & E2 & E3 & E4 & E5 & E6 & E7 & E8 & E9).
  destruct (getWorker s1) as [s1' w]. simpl in *.
  rewrite apply_admitted in Hreq by (by rewrite E2). injection Hreq as <- <-.
  assert (length (promises s1') = length (promises s)) as Hlen.
  { rewrite E6. unfold s1. simpl. by rewrite rejectEach_length. }
  assert (s3 = set_queue ∅
            (set_workers
               (alter (postMessage (MainMessage.mk (id s1' + 1) name args) transfer) w
                  (workers s1'))
               (set_queue
                  (<[id s1' + 1 := mkEntry (ResolveOf (length (promises s1')))
                                     (RejectOf (length (promises s1')))]> (queue s1'))
                  (set_id (id s1' + 1) (set_promises (promises s1' ++ [Pending]) s1')))))
    as Hs3.
  { unfold s3, remainder. simpl. unfold onTaskComplete.
    rewrite checkTerminateComplete_idle; [done|]. simpl. by rewrite E2. }
  split_and!.
  - done.
  - rewrite Hlen. by apply lookup_ge_None.
  - simpl. rewrite E3, E4. unfold s1. simpl. rewrite lookup_insert_eq. eauto.
  - by rewrite Hs3.
  - rewrite Hs3. simpl. apply lookup_newPromise_new.
  - intros data. unfold handleResponse. by rewrite Hs3.
  - intros e'. simpl. unfold onTaskComplete.
    rewrite checkTerminateComplete_idle.
    + simpl. rewrite Hs3. simpl. by rewrite values_empty.
    + simpl. rewrite Hs3. simpl. by rewrite E2.
Qed.

Lemma async_failure_window_witness :
  let s := (request "add" None [VNum 1; VNum 2] initial).1 in
  let e := VEvent "error" in
  (SentEvent.handleError e s).2 (SentEvent.handleError e s).1 = Index.handleError e s.
Proof.
  intros s e.
  refine (proj1 (async_failure_window e s "add" None [VNum 3] _)).
  reflexivity.
Defined.

(** ** Subscriptions *)

Lemma add_NoDup h (hs : list listener) : NoDup hs → NoDup (SentEvent.add h hs).
Proof.
  intros Hnd. unfold SentEvent.add. case_decide as Hin; [done|].
  apply NoDup_app. split_and!; [done| |apply NoDup_singleton].
  intros x Hx ->%list_elem_of_singleton. done.
Qed.

Lemma elem_of_add h (hs : list listener) : h ∈ SentEvent.add h hs.
Proof.
  unfold SentEvent.add. case_decide; [done|]. apply elem_of_app. right. left.
Qed.

Lemma remove_add h (hs : list listener) :
  SentEvent.remove h (SentEvent.add h hs) = SentEvent.remove h hs.
Proof.
  unfold SentEvent.add, SentEvent.remove. case_decide; [done|].
  rewrite filter_app. simpl. rewrite filter_cons_False by (by intros []).
  by rewrite filter_nil, app_nil_r.
Qed.

Lemma onWSE_handles name h s :
  handles (SentEvent.onWSE name h s).1
  = <[name := SentEvent.add h (default [] (handles s !! name))]> (handles s).
Proof.
  unfold SentEvent.onWSE.
  destruct (getWorker_fields s) as (_ & _ & _ & _ & E5 & _).
  simpl. rewrite E5.
  destruct (handles s !! name) as [hs|] eqn:Hhs; simpl.
  - by rewrite E5, Hhs.
  - rewrite lookup_insert_eq. simpl. by rewrite insert_insert_eq.
Qed.

Lemma onWSE_worker name h s :
  worker (SentEvent.onWSE name h s).1 = Some (getWorker s).2 ∧
  workers (SentEvent.onWSE name h s).1 = workers (getWorker s).1.
Proof.
  unfold SentEvent.onWSE.
  destruct (getWorker_fields s) as (_ & _ & _ & _ & _ & _ & _ & _ & E9).
  simpl. by destruct (handles (getWorker s).1 !! name).
Qed.

(** Subscribing with [onWSE] or [onEvent] (the same text) makes sure the
    worker exists and adds the listener to the set of the name, after
    those already there and only if it is not there yet, so that a set
    without repetition stays so; other names are untouched.  An event
    that the worker side then emits for that name calls the listeners of
    the set in that order, the new one included.  The function returned
    is [offWSE] applied to the same name and listener. *)
Theorem subscription_delivers
    (behaviour : listener → list value → option value)
    (name : string) (h : listener) (payload : value) (s : state) :
  let hs := default [] (handles s !! name) in
  let s' := (SentEvent.onWSE name h s).1 in
  SendEvent.onEvent name h s = SentEvent.onWSE name h s ∧
  (SentEvent.onWSE name h s).2 = (name, h) ∧
  worker s' = Some (getWorker s).2 ∧
  handles s' !! name = Some (if decide (h ∈ hs) then hs else hs ++ [h]) ∧
  (∀ name', name' ≠ name → handles s' !! name' = handles s !! name') ∧
  (NoDup hs → NoDup (default [] (handles s' !! name))) ∧
  deliveries s' (SentEvent.handleMessage behaviour (SentEvent.emit name payload) s').1
  = (λ h', (h', [payload])) <$> (if decide (h ∈ hs) then hs else hs ++ [h]) ∧
  (h, [payload])
    ∈ deliveries s' (SentEvent.handleMessage behaviour (SentEvent.emit name payload) s').1.
Proof.
  intros hs s'.
  assert (handles s' !! name = Some (SentEvent.add h hs)) as Hset.
  { unfold s'. rewrite onWSE_handles. apply lookup_insert_eq. }
  assert (deliveries s'
            (SentEvent.handleMessage behaviour (SentEvent.emit name payload) s').1
          = (λ h', (h', [payload])) <$> SentEvent.add h hs) as Hdel.
  { unfold SentEvent.emit. rewrite sent_deliveries, Hset. done. }
  split_and!.
  - done.
  - done.
  - apply onWSE_worker.
  - done.
  - intros name' Hne. unfold s'. rewrite onWSE_handles. by apply lookup_insert_ne.
  - intros Hnd. rewrite Hset. simpl. by apply add_NoDup.
  - done.
  - rewrite Hdel. apply tagged_elem, elem_of_add.
Qed.

Lemma offWSE_Some name h s hs :
  handles s !! name = Some hs →
  SentEvent.offWSE name h s = set_handles (<[name := SentEvent.remove h hs]> (handles s)) s.
Proof. intros Hhs. unfold SentEvent.offWSE. by rewrite Hhs. Qed.

Lemma onWSE_again name h s w hs :
  worker s = Some w → handles s !! name = Some hs → h ∈ hs →
  (SentEvent.onWSE name h s).1 = s.
Proof.
  intros Hw Hhs Hin. unfold SentEvent.onWSE. rewrite (getWorker_idle s w Hw). simpl.
  rewrite Hhs. simpl. rewrite Hhs. simpl.
  unfold SentEvent.add. rewrite decide_True by done.
  rewrite insert_id by done. apply set_handles_id.
Qed.

(** Calling the function a subscription returned removes the listener from
    the set of the name, also when the listener was subscribed before: a
    second subscription of the same function adds nothing, and either
    returned function removes it altogether.  The worker that the
    subscription created stays. *)
Theorem unsubscribe_handle_removes_listener
    (name : string) (h : listener) (s : state) :
  let hs := default [] (handles s !! name) in
  let s' := (SentEvent.onWSE name h s).1 in
  let off := (SentEvent.onWSE name h s).2 in
  let s'' := SentEvent.offWSE off.1 off.2 s' in
  handles s'' !! name = Some (filter (λ x, x ≠ h) hs) ∧
  (h ∉ hs → handles s'' !! name = Some hs) ∧
  (∀ name', name' ≠ name → handles s'' !! name' = handles s !! name') ∧
  worker s'' = worker s' ∧ workers s'' = workers s' ∧
  (SentEvent.onWSE name h s').1 = s'.
Proof.
  intros hs s' off s''.
  assert (handles s' !! name = Some (SentEvent.add h hs)) as Hset.
  { unfold s'. rewrite onWSE_handles. apply lookup_insert_eq. }
  assert (s'' = set_handles
            (<[name := SentEvent.remove h (SentEvent.add h hs)]> (handles s')) s') as Hs''.
  { transitivity (SentEvent.offWSE name h s'); [done|]. by apply offWSE_Some. }
  assert (handles s'' !! name = Some (SentEvent.remove h hs)) as Hoff.
  { rewrite Hs''. simpl. by rewrite lookup_insert_eq, remove_add. }
  split_and!.
  - done.
  - intros Hh. rewrite Hoff. by rewrite remove_absent.
  - intros name' Hne. rewrite Hs''.
    change (<[name:=SentEvent.remove h (SentEvent.add h hs)]> (handles s') !! name'
            = handles s !! name').
    rewrite lookup_insert_ne by done.
    unfold s'. rewrite onWSE_handles. by apply lookup_insert_ne.
  - by rewrite Hs''.
  - by rewrite Hs''.
  - destruct (onWSE_worker name h s) as [Hw _].
    by apply (onWSE_again name h s' _ _ Hw Hset), elem_of_add.
Qed.

(** ** Dispatch with [forEach] *)

Section ForEach.

Variable behaviour : listener → list value → option value.

Lemma forEach_outcome ls payload s s' :
  (SendEvent.forEach behaviour ls payload s).2
  = (SendEvent.forEach behaviour ls payload s').2.
Proof.
  revert s s'. induction ls as [|l ls IH]; intros s s'; simpl; [done|].
  destruct (behaviour l payload); [done|]. apply IH.
Qed.

Lemma forEach_returns ls payload s :
  Forall (λ l, behaviour l payload = None) ls →
  SendEvent.forEach behaviour ls payload s
  = (set_delivered (delivered s ++ ((λ l, (l, payload)) <$> ls)) s, Returns ()).
Proof.
  revert s. induction ls as [|l ls IH]; intros s Hall; simpl.
  - rewrite app_nil_r. by destruct s.
  - apply Forall_cons in Hall as [Hl Hall]. rewrite Hl, IH by done.
    simpl. by rewrite <- app_assoc.
Qed.

Lemma forEach_throws before l e after payload s :
  Forall (λ l, behaviour l payload = None) before →
  behaviour l payload = Some e →
  SendEvent.forEach behaviour (before ++ l :: after) payload s
  = (set_delivered (delivered s ++ ((λ l, (l, payload)) <$> before ++ [l])) s, Throws e).
Proof.
  revert s. induction before as [|l' before IH]; intros s Hall He; simpl.
  - by rewrite He.
  - apply Forall_cons in Hall as [Hl' Hall]. rewrite Hl', IH by done.
    simpl. by rewrite <- app_assoc.
Qed.

Variable script : listener → list value → state → list SendEvent.action.

(** For listeners that do not act on the proxy the loop over the live set
    is the loop over the set as it was. *)
Lemma forEachLive_quiet name payload ls :
  ∀ fuel s c,
  (∀ l s', l ∈ ls → script l payload s' = []) →
  (length ls < fuel)%nat →
  SendEvent.forEachLive behaviour script fuel name payload s (SendEvent.mkIteration ls c)
  = Some (SendEvent.forEach behaviour ls payload s).
Proof.
  induction ls as [|l ls IH]; intros fuel s c Hquiet Hfuel;
    (destruct fuel as [|fuel]; [simpl in Hfuel; lia|]); simpl; [done|].
  rewrite (Hquiet l) by left. simpl.
  destruct (behaviour l payload); [done|].
  apply IH.
  - intros l' s' Hl'. apply Hquiet. by right.
  - simpl in Hfuel. lia.
Qed.

Lemma offEvent_delivered name l s : delivered (SendEvent.offEvent name l s) = delivered s.
Proof. unfold SendEvent.offEvent. by destruct (handles s !! name). Qed.

Lemma filter_remove (l : listener) (ls hs : list listener) :
  filter (λ x, x ∉ ls) (SentEvent.remove l hs) = filter (λ x, x ∉ l :: ls) hs.
Proof.
  unfold SentEvent.remove. induction hs as [|h hs IH]; [done|].
  rewrite (filter_cons (λ x, x ≠ l)), (filter_cons (λ x, x ∉ l :: ls)).
  destruct (decide (h ≠ l)) as [Hne|Heq].
  - rewrite filter_cons. destruct (decide (h ∉ ls)) as [Hout|Hin].
    + rewrite decide_True by (by apply not_elem_of_cons). by rewrite IH.
    + rewrite decide_False; [done|]. intros [_ ?]%not_elem_of_cons. done.
  - rewrite decide_False; [done|]. intros [? _]%not_elem_of_cons. done.
Qed.

Lemma filter_all_elem_of (ls hs : list listener) :
  (∀ x, x ∈ hs → x ∈ ls) → filter (λ x, x ∉ ls) hs = [].
Proof.
  induction hs as [|h hs IH]; intros Hsub; [done|].
  rewrite filter_cons_False by (intros Hout; apply Hout, Hsub; left).
  apply IH. intros x Hx. apply Hsub. by right.
Qed.

(** Listeners that at most unsubscribe themselves: each is called, and the
    set loses those that did. *)
Lemma forEachLive_self name payload ls :
  ∀ fuel s c,
  NoDup ls →
  Forall (λ l, behaviour l payload = None) ls →
  (∀ l s', l ∈ ls →
     script l payload s' = [] ∨ script l payload s' = [SendEvent.DoOffEvent name l]) →
  (length ls < fuel)%nat →
  ∃ s',
    SendEvent.forEachLive behaviour script fuel name payload s (SendEvent.mkIteration ls c)
    = Some (s', Returns ()) ∧
    delivered s' = delivered s ++ ((λ l, (l, payload)) <$> ls) ∧
    ((∀ l s', l ∈ ls → script l payload s' = [SendEvent.DoOffEvent name l]) →
       handles s' !! name = filter (λ x, x ∉ ls) <$> handles s !! name).
Proof.
  induction ls as [|l ls IH]; intros fuel s c Hnd Hall Hself Hfuel;
    (destruct fuel as [|fuel]; [simpl in Hfuel; lia|]); simpl.
  - exists s. split; [done|]. split; [by rewrite app_nil_r|]. intros _.
    destruct (handles s !! name) as [hs|]; simpl; [|done]. f_equal.
    induction hs as [|h hs IHhs]; [done|].
    rewrite filter_cons_True by apply not_elem_of_nil. by rewrite <- IHhs.
  - apply NoDup_cons in Hnd as [Hl Hnd]. apply Forall_cons in Hall as [Hnone Hall].
    assert (∀ l' s', l' ∈ ls →
              script l' payload s' = [] ∨ script l' payload s' = [SendEvent.DoOffEvent name l'])
      as Hself' by (intros l' s' Hl'; apply Hself; by right).
    assert (length ls < fuel)%nat as Hfuel' by (simpl in Hfuel; lia).
    set (s1 := set_delivered (delivered s ++ [(l, payload)]) s).
    destruct (Hself l s1) as [Hquiet|Hoff]; [by left| |].
    + rewrite Hquiet. simpl. rewrite Hnone.
      destruct (IH fuel s1 c Hnd Hall Hself' Hfuel') as (s' & Hrun & Hdel & _).
      exists s'. split; [done|]. split.
      * rewrite Hdel. simpl. by rewrite <- app_assoc.
      * intros Honce. specialize (Honce l s1). rewrite Hquiet in Honce.
        discriminate Honce. by left.
    + rewrite Hoff. simpl. rewrite decide_True by done. rewrite Hnone.
      assert ((if c then SendEvent.mkIteration (SentEvent.remove l ls) true
               else SendEvent.mkIteration ls c) = SendEvent.mkIteration ls c) as ->.
      { destruct c; [|done]. by rewrite remove_absent. }
      destruct (IH fuel (SendEvent.offEvent name l s1) c Hnd Hall Hself' Hfuel')
        as (s' & Hrun & Hdel & Hset).
      exists s'. split; [done|]. split.
      * rewrite Hdel, offEvent_delivered. simpl. by rewrite <- app_assoc.
      * intros Honce. rewrite Hset by (intros l' s'' Hl'; apply Honce; by right).
        change (SendEvent.offEvent name l s1) with (SentEvent.offWSE name l s1).
        rewrite offWSE_handles. simpl.
        destruct (handles s !! name) as [hs|]; simpl; [|done].
        by rewrite filter_remove.
Qed.

End ForEach.

(** In the revision with [onEvent], an event for a name that has a set of
    listeners calls them in order with the payload spread as arguments.
    For listeners that do not act on the proxy while they run, the loop
    over the live set is the loop over the set as it was when the dispatch
    began.  When none throws, all are called and the handler returns.  When
    one throws, those before it and itself have been called, those after it
    have not, and its exception leaves the handler.  The handler itself
    changes none of the closure variables and logs nothing. *)
Theorem dispatch_stops_at_first_exception
    (behaviour : listener → list value → option value)
    (script : listener → list value → state → list SendEvent.action)
    (name : string) (payload : list value) (ls : list listener) (s : state) :
  handles s !! name = Some ls →
  (∀ l s', l ∈ ls → script l payload s' = []) →
  let result :=
    SendEvent.handleMessageLive behaviour script (S (length ls))
      (SendEvent.sender name payload) s in
  result = Some (SendEvent.handleMessage behaviour (SendEvent.sender name payload) s) ∧
  (Forall (λ l, behaviour l payload = None) ls →
     result
     = Some (set_delivered (delivered s ++ ((λ l, (l, payload)) <$> ls)) s, Returns ())) ∧
  (∀ before l e after,
     ls = before ++ l :: after →
     Forall (λ l, behaviour l payload = None) before →
     behaviour l payload = Some e →
     result
     = Some (set_delivered (delivered s ++ ((λ l, (l, payload)) <$> before ++ [l])) s,
             Throws e)).
Proof.
  intros Hls Hquiet result.
  assert (result = Some (SendEvent.forEach behaviour ls payload s)) as ->.
  { unfold result, SendEvent.handleMessageLive, SendEvent.sender.
    case_decide as Hty; [done|]. rewrite Hls. apply forEachLive_quiet; [done|lia]. }
  simpl. rewrite Hls. split_and!.
  - done.
  - intros Hall. f_equal. by apply forEach_returns.
  - intros before l e after -> Hall He. f_equal. by apply forEach_throws.
Qed.

Lemma dispatch_stops_at_first_exception_witness :
  let behaviour := λ (l : listener) (_ : list value),
    if decide (l = 1%nat) then Some (VStr "oops") else None in
  let script := λ (_ : listener) (_ : list value) (_ : state), @nil SendEvent.action in
  let s := (SendEvent.onEvent "count" 2%nat
             (SendEvent.onEvent "count" 1%nat
               (SendEvent.onEvent "count" 0%nat initial).1).1).1 in
  SendEvent.handleMessageLive behaviour script 4 (SendEvent.sender "count" [VNum 7]) s
  = Some (set_delivered [(0%nat, [VNum 7]); (1%nat, [VNum 7])] s, Throws (VStr "oops")).
Proof.
  intros behaviour script s.
  refine (proj2 (proj2 (dispatch_stops_at_first_exception behaviour script "count" [VNum 7]
                   [0%nat; 1%nat; 2%nat] s _ _)) [0%nat] 1%nat (VStr "oops") [2%nat] _ _ _).
  - reflexivity.
  - reflexivity.
  - reflexivity.
  - by repeat constructor.
  - reflexivity.
Defined.

(** ** Listeners that unsubscribe while an event is dispatched *)

(** In the revision with [onEvent], a listener may unsubscribe itself while
    it is called, as a listener that wants one event does.  When the
    listeners of the set do nothing else to the proxy and none throws, the
    dispatch still calls every listener of the set once, in order, and
    returns; when each of them unsubscribes itself the set is empty
    afterwards. *)
Theorem self_unsubscribe_during_dispatch
    (behaviour : listener → list value → option value)
    (script : listener → list value → state → list SendEvent.action)
    (name : string) (payload : list value) (ls : list listener) (s : state) :
  handles s !! name = Some ls →
  NoDup ls →
  Forall (λ l, behaviour l payload = None) ls →
  (∀ l s', l ∈ ls →
     script l payload s' = [] ∨ script l payload s' = [SendEvent.DoOffEvent name l]) →
  ∃ s',
    SendEvent.handleMessageLive behaviour script (S (length ls))
      (SendEvent.sender name payload) s = Some (s', Returns ()) ∧
    deliveries s s' = (λ l, (l, payload)) <$> ls ∧
    ((∀ l s', l ∈ ls → script l payload s' = [SendEvent.DoOffEvent name l]) →
       handles s' !! name = Some []).
Proof.
  intros Hls Hnd Hall Hself. unfold SendEvent.handleMessageLive, SendEvent.sender.
  case_decide as Hty; [done|]. rewrite Hls.
  destruct (forEachLive_self behaviour script name payload ls (S (length ls)) s true
              Hnd Hall Hself) as (s' & Hrun & Hdel & Hset); [lia|].
  exists s'. split; [done|]. split.
  - unfold deliveries. rewrite Hdel. by rewrite drop_app_length.
  - intros Honce. rewrite (Hset Honce), Hls. simpl. f_equal.
    by apply filter_all_elem_of.
Qed.

Lemma self_unsubscribe_during_dispatch_witness :
  let behaviour := λ (_ : listener) (_ : list value), @None value in
  let script := λ (l : listener) (_ : list value) (_ : state),
    [SendEvent.DoOffEvent "count" l] in
  let s := (SendEvent.onEvent "count" 2%nat
             (SendEvent.onEvent "count" 1%nat
               (SendEvent.onEvent "count" 0%nat initial).1).1).1 in
  ∃ s',
    SendEvent.handleMessageLive behaviour script 4 (SendEvent.sender "count" [VNum 7]) s
    = Some (s', Returns ()) ∧
    deliveries s s' = [(0%nat, [VNum 7]); (1%nat, [VNum 7]); (2%nat, [VNum 7])] ∧
    handles s' !! "count" = Some [].
Proof.
  intros behaviour script s.
  destruct (self_unsubscribe_during_dispatch behaviour script "count" [VNum 7]
              [0%nat; 1%nat; 2%nat] s) as (s' & Hrun & Hdel & Hset).
  - reflexivity.
  - apply (bool_decide_unpack _). reflexivity.
  - by repeat constructor.
  - intros l s' _. by right.
  - exists s'. split; [exact Hrun|]. split; [exact Hdel|]. apply Hset. by intros l s'' _.
Defined.

(** The set is read as it is when each listener is reached: a listener
    that an earlier one has unsubscribed is not called, and one that an
    earlier one has subscribed is. *)
Example unsubscribed_during_dispatch_is_skipped :
  let behaviour := λ (_ : listener) (_ : list value), @None value in
  let script := λ (l : listener) (_ : list value) (_ : state),
    if decide (l = 0%nat)
    then [SendEvent.DoOffEvent "count" 1%nat; SendEvent.DoOnEvent "count" 3%nat]
    else [] in
  let s := (SendEvent.onEvent "count" 2%nat
             (SendEvent.onEvent "count" 1%nat
               (SendEvent.onEvent "count" 0%nat initial).1).1).1 in
  SendEvent.handleMessageLive behaviour script 4 (SendEvent.sender "count" [VNum 7]) s
  = Some (set_handles {[ "count" := [0%nat; 2%nat; 3%nat] ]}
            (set_delivered [(0%nat, [VNum 7]); (2%nat, [VNum 7]); (3%nat, [VNum 7])] s),
          Returns ()).
Proof. vm_compute. reflexivity. Qed.

(** ** Messages with a type that reach no listener *)

(** A message with a [type] is dispatched to listeners only when the type
    is the tag of the revision and the name has a set.  Otherwise, in the
    revision with [onEvent] the handler returns at once, whether or not the
    message has an [id]: nothing changes, and a call pending under that
    identifier stays pending.  In the revision with [onWSE] the handler
    goes on to the code for responses: a message without [id] finds no
    entry and changes nothing, but one with an [id] is handled as the
    response with its fields, so that it settles the call pending under
    that identifier and removes its entry.  When the name has a set, be it
    empty, a message with the tag is dispatched as the event without [id]
    is, and the registry of calls is not read. *)
Theorem typed_message_without_listeners
    (behaviour : listener → list value → option value)
    (type : string) (data : WorkerMessage.t) (s : state) :
  let name := WorkerMessage.name data in
  (type ≠ "worker-send-event" ∨ handles s !! name = None →
     ∀ payload,
       SendEvent.handleMessage behaviour
         (SendEvent.Typed type (WorkerMessage.id data) name payload) s = (s, Returns ()) ∧
       SendEvent.handleMessage behaviour (SendEvent.Tagged type name payload) s
       = (s, Returns ())) ∧
  (type ≠ "worker-sent-event" ∨ handles s !! name = None →
     SentEvent.handleMessage behaviour (SentEvent.Typed type data) s
     = (handleResponse data s, Returns ()) ∧
     (∀ payload,
        SentEvent.handleMessage behaviour (SentEvent.Tagged type name payload) s
        = (s, Returns ())) ∧
     (∀ en, queue s !! WorkerMessage.id data = Some en → paired en →
        promises s !! promiseOf en = Some Pending →
        let s' := (SentEvent.handleMessage behaviour (SentEvent.Typed type data) s).1 in
        promises s' !! promiseOf en = Some (settlement data) ∧
        queue s' = delete (WorkerMessage.id data) (queue s))) ∧
  (is_Some (handles s !! name) →
     SentEvent.handleMessage behaviour (SentEvent.Typed "worker-sent-event" data) s
     = SentEvent.handleMessage behaviour
         (SentEvent.Tagged "worker-sent-event" name (WorkerMessage.payload data)) s) ∧
  (handles s !! name = Some [] →
     SentEvent.handleMessage behaviour (SentEvent.Typed "worker-sent-event" data) s
     = (s, Returns ())).
Proof.
  intros name.
  assert (type ≠ "worker-sent-event" ∨ handles s !! name = None →
          SentEvent.handleMessage behaviour (SentEvent.Typed type data) s
          = (handleResponse data s, Returns ())) as Hfalls.
  { intros Hno. simpl. case_decide as Hty; [|done]. fold name.
    destruct Hno as [Hne|Hnone]; [done|]. by rewrite Hnone. }
  split_and!.
  - intros Hno payload. simpl. case_decide as Hty; [done|].
    destruct Hno as [Hne|Hnone]; [done|]. by rewrite Hnone.
  - intros Hno. split_and!.
    + by apply Hfalls.
    + intros payload. simpl. case_decide as Hty; [|done].
      destruct Hno as [Hne|Hnone]; [done|]. by rewrite Hnone.
    + intros en Hen Hpair Hp s'. unfold s'. rewrite (Hfalls Hno). simpl.
      split; [|apply handleResponse_queue].
      unfold handleResponse, onTaskComplete. rewrite Hen.
      apply checkTerminateComplete_keeps; [|apply settlement_pending]. simpl.
      unfold settlement. rewrite Hpair. simpl.
      destruct (WorkerMessage.error data); simpl; by apply settle_pending.
  - intros [hs Hhs]. simpl. fold name. by rewrite Hhs.
  - intros Hhs. simpl. fold name. by rewrite Hhs.
Qed.

Lemma typed_message_without_listeners_witness :
  let behaviour := λ (_ : listener) (_ : list value), @None value in
  let s := (request "add" None [VNum 1; VNum 2] initial).1 in
  let data := WorkerMessage.mk 1 "progress" (VNum 50) false in
  queue s !! 1 = Some (mkEntry (ResolveOf 0%nat) (RejectOf 0%nat)) ∧
  (let s' := (SentEvent.handleMessage behaviour (SentEvent.Typed "progress" data) s).1 in
   promises s' !! 0%nat = Some (Fulfilled (VNum 50)) ∧ queue s' = delete 1 (queue s)) ∧
  SendEvent.handleMessage behaviour (SendEvent.Typed "progress" 1 "progress" [VNum 50]) s
  = (s, Returns ()).
Proof.
  intros behaviour s data.
  pose proof (typed_message_without_listeners behaviour "progress" data s) as (Hsend & Hsent & _).
  split; [reflexivity|]. split.
  - refine (proj2 (proj2 (Hsent _)) (mkEntry (ResolveOf 0%nat) (RejectOf 0%nat)) _ _ _).
    + by right.
    + reflexivity.
    + reflexivity.
    + reflexivity.
  - refine (proj1 (Hsend _ [VNum 50])). by right.
Defined.

(** ** Clearing *)

(** [clearWSE] and [clearEvents()] only empty the listener registry: every
    event afterwards calls nobody and changes nothing, and a function
    returned by an earlier subscription does nothing.  [clearEvents(name)]
    does so for that name alone: an event of another name calls the same
    listeners with the same outcome as before, and a new subscription to
    the cleared name starts a set of its own. *)
Theorem clearing_silences_listeners
    (behaviour : listener → list value → option value) (s : state) :
  SendEvent.clearEvents None s = SentEvent.clearWSE s ∧
  SentEvent.clearWSE s = set_handles ∅ s ∧
  (∀ name payload,
     SentEvent.handleMessage behaviour (SentEvent.emit name payload) (SentEvent.clearWSE s)
     = (SentEvent.clearWSE s, Returns ())) ∧
  (∀ name payload,
     SendEvent.handleMessage behaviour (SendEvent.sender name payload)
       (SendEvent.clearEvents None s)
     = (SendEvent.clearEvents None s, Returns ())) ∧
  (∀ name h, SentEvent.offWSE name h (SentEvent.clearWSE s) = SentEvent.clearWSE s) ∧
  (∀ n payload,
     SendEvent.handleMessage behaviour (SendEvent.sender n payload)
       (SendEvent.clearEvents (Some n) s)
     = (SendEvent.clearEvents (Some n) s, Returns ())) ∧
  (∀ n name payload, name ≠ n →
     let s1 := SendEvent.clearEvents (Some n) s in
     let before := SendEvent.handleMessage behaviour (SendEvent.sender name payload) s in
     let after := SendEvent.handleMessage behaviour (SendEvent.sender name payload) s1 in
     deliveries s1 after.1 = deliveries s before.1 ∧ after.2 = before.2) ∧
  (∀ n h,
     handles (SendEvent.onEvent n h (SendEvent.clearEvents (Some n) s)).1 !! n = Some [h]).
Proof.
  split_and!; try done.
  - intros n payload. simpl. by rewrite lookup_delete_eq.
  - intros n name payload Hne s1 before after.
    unfold before, after, s1. rewrite !send_deliveries. simpl.
    rewrite lookup_delete_ne by done.
    split; [done|]. destruct (handles s !! name); [|done]. apply forEach_outcome.
  - intros n h.
    change (SendEvent.onEvent n h (SendEvent.clearEvents (Some n) s))
      with (SentEvent.onWSE n h (SendEvent.clearEvents (Some n) s)).
    rewrite onWSE_handles, lookup_insert_eq. simpl. by rewrite lookup_delete_eq.
Qed.

(** ** Lazy creation of the worker *)

Local Ltac not_reserved :=
  let Hin := fresh in
  intros Hin;
  repeat (apply elem_of_cons in Hin as [?|Hin]; [congruence|]);
  by apply elem_of_nil in Hin.

(** Before the first use there is no worker.  Reading [terminate] or [call]
    (and, in the revisions that have them, the names of the event
    functions) from the proxy creates none, nor does calling
    [terminate()]; reading any other property creates the [Worker] with
    its three listeners, whether the function read is then called or not,
    and so do [call(name)] and a subscription.  Reading a property a
    second time creates no second [Worker]. *)
Theorem worker_created_on_first_use (s : state) :
  worker s = None →
  let fresh :=
    set_worker (Some (length (workers s)))
      (set_workers (workers s ++ [mkWorker listening false []]) s) in
  (∀ prop,
     (Index.proxy_get prop s).1
     = if decide (prop ∈ ["terminate"; "call"]) then s else fresh) ∧
  (∀ prop,
     (SentEvent.proxy_get prop s).1
     = if decide (prop ∈ ["terminate"; "call"; "onWSE"; "offWSE"; "clearWSE"])
       then s else fresh) ∧
  (∀ prop,
     (SendEvent.proxy_get prop s).1
     = if decide (prop ∈ ["terminate"; "call"; "onEvent"; "offEvent"; "clearEvents"])
       then s else fresh) ∧
  (∀ name transfer, (call name transfer s).1 = fresh) ∧
  (∀ name h, worker (SentEvent.onWSE name h s).1 = worker fresh ∧
             workers (SentEvent.onWSE name h s).1 = workers fresh) ∧
  terminate s = (s, Completed) ∧
  (∀ prop, (Index.proxy_get prop fresh).1 = fresh).
Proof.
  intros Hw fresh.
  assert (∀ name transfer, (call name transfer s).1 = fresh) as Hcall.
  { intros. unfold call. by rewrite (getWorker_fresh s Hw). }
  assert (∀ name transfer, (call name transfer fresh).1 = fresh) as Hagain.
  { intros. unfold call. by rewrite (getWorker_idle fresh (length (workers s))). }
  split_and!.
  - intros prop. unfold Index.proxy_get.
    repeat (case_decide; [subst; by rewrite decide_True by repeat constructor|]).
    rewrite decide_False by not_reserved.
    specialize (Hcall prop None). by destruct (call prop None s).
  - intros prop. unfold SentEvent.proxy_get.
    repeat (case_decide; [subst; by rewrite decide_True by repeat constructor|]).
    rewrite decide_False by not_reserved.
    specialize (Hcall prop None). by destruct (call prop None s).
  - intros prop. unfold SendEvent.proxy_get.
    repeat (case_decide; [subst; by rewrite decide_True by repeat constructor|]).
    rewrite decide_False by not_reserved.
    specialize (Hcall prop None). by destruct (call prop None s).
  - done.
  - intros name h. destruct (onWSE_worker name h s) as [-> ->].
    by rewrite (getWorker_fresh s Hw).
  - unfold terminate. by rewrite Hw.
  - intros prop. unfold Index.proxy_get.
    repeat (case_decide; [done|]).
    specialize (Hagain prop None). by destruct (call prop None fresh).
Qed.

Lemma worker_created_on_first_use_witness :
  (Index.proxy_get "then" initial).1
  = (if decide ("then" ∈ ["terminate"; "call"]) then initial
     else set_worker (Some 0%nat) (set_workers [mkWorker listening false []] initial)) ∧
  (Index.proxy_get "terminate" initial).1
  = (if decide ("terminate" ∈ ["terminate"; "call"]) then initial
     else set_worker (Some 0%nat) (set_workers [mkWorker listening false []] initial)).
Proof.
  pose proof (worker_created_on_first_use initial) as H.
  refine (let H' := H _ in conj (proj1 H' "then") (proj1 H' "terminate")).
  reflexivity.
Defined.
